(** * cap-bpa-client: the query builder, the query normalizer and the client

    A shallow embedding of [src/query-builder.ts] (class [QueryBuilder]),
    of [constructQuery] (utils) and of part of [src/client.ts], followed
    by the properties of the specification that concern them.

    JavaScript values are an inductive type, the two private arrays of the
    builder are a record of lists, and a method is a function from the
    builder's state to a completion (normal or thrown) and the state it
    leaves behind: a push done before a [TypeError] is still there after
    it, as in the source. *)

From Stdlib Require Import List String Ascii ZArith NArith Bool Lia.
From Stdlib Require Import Permutation Sorted DecimalString.
Import ListNotations.
Local Open Scope string_scope.
Local Open Scope list_scope.

Set Warnings "-register-all".

(** ** Completions *)

Inductive JSError : Type := TypeError.

(** How an evaluation ends: with a value, or with a thrown error. *)
Inductive completion (A : Type) : Type :=
| Normal (a : A)
| Throw (e : JSError).
Arguments Normal {A} a.
Arguments Throw {A} e.

Definition throws {A : Type} (c : completion A) : bool :=
  match c with Normal _ => false | Throw _ => true end.

Class Monad (m : Type -> Type) : Type := {
  ret : forall {A : Type}, A -> m A;
  bind : forall {A B : Type}, m A -> (A -> m B) -> m B
}.

Notation "x <- c1 ;; c2" := (bind c1 (fun x => c2))
  (at level 61, c1 at next level, right associativity).
Notation "c1 ;; c2" := (bind c1 (fun _ => c2))
  (at level 61, right associativity).

#[global] Instance completion_Monad : Monad completion := {
  ret := fun A a => Normal a;
  bind := fun A B c f =>
    match c with
    | Normal a => f a
    | Throw e => Throw e
    end
}.

(** ** JavaScript values *)

Definition MAX_SAFE_INTEGER : Z := 9007199254740991.

Definition isSafeInteger (n : Z) : bool := (Z.abs n <=? MAX_SAFE_INTEGER)%Z.

(** The numbers of the model are the safe integers, those of absolute
    value at most 2^53 - 1: each is a Number of its own, and
    Number::toString gives its decimal numeral.  Fractions, larger
    numbers, NaN and the infinities are not values of the model. *)
Record SafeInteger : Type := mkSafeInteger {
  toZ : Z;
  toZ_safe : isSafeInteger toZ = true
}.

(** The values an argument object can hold.  An object is the list of its
    own enumerable properties in creation order, with pairwise distinct
    keys; its prototype is [Object.prototype], that of an array is
    [Array.prototype].  There are no functions, symbols or bigints among
    the values. *)
Inductive JSValue : Type :=
| VUndefined
| VNull
| VBool (b : bool)
| VNumber (n : SafeInteger)
| VStr (s : string)
| VArr (elems : list JSValue)
| VObj (props : list (string * JSValue)).

(** [VNum n] is the number [n], for a numeral [n] in the safe range. *)
Notation "'VNum' n" := (VNumber (mkSafeInteger n%Z eq_refl))
  (at level 10, n at level 9, only parsing).

Definition JSObject : Type := list (string * JSValue).

(** ToBoolean, the test of [if (x)] and [!x]. *)
Definition ToBoolean (v : JSValue) : bool :=
  match v with
  | VUndefined | VNull => false
  | VBool b => b
  | VNumber n => negb (toZ n =? 0)%Z
  | VStr s => negb (s =? "")
  | VArr _ | VObj _ => true
  end.

Definition Number_toString (n : SafeInteger) : string :=
  NilZero.string_of_int (Z.to_int (toZ n)).

(** [Array.prototype.join] on the strings of the elements. *)
Fixpoint join (sep : string) (l : list string) : string :=
  match l with
  | [] => ""
  | [s] => s
  | s :: rest => s ++ sep ++ join sep rest
  end.

(** [Object.hasOwn(o, name)]. *)
Definition hasOwnProperty (o : JSObject) (name : string) : bool :=
  existsb (fun entry => fst entry =? name) o.

(** [f] on every element from left to right, up to the first throw. *)
Definition mapC {A B : Type} (f : A -> completion B)
  : list A -> completion (list B) :=
  fix go (l : list A) : completion (list B) :=
    match l with
    | [] => Normal []
    | x :: rest =>
        match f x with
        | Normal y =>
            match go rest with
            | Normal ys => Normal (y :: ys)
            | Throw e => Throw e
            end
        | Throw e => Throw e
        end
    end.

Definition isNullish (v : JSValue) : bool :=
  match v with VUndefined | VNull => true | _ => false end.

(** ToString, the conversion a template literal applies to [${v}].
    An object goes through ToPrimitive: its [toString] is looked up and
    called.  With no own property of that name it is
    [Object.prototype.toString], which gives "[object Object]"; an own
    property [toString] holds a value that is not a function, [valueOf]
    (its own, not a function either, or [Object.prototype.valueOf], which
    returns the object) gives no primitive, and the conversion throws a
    [TypeError].  An array is joined with commas, [null] and [undefined]
    elements giving the empty string and the others their own ToString, so
    it throws when one of them does. *)
Fixpoint ToString (v : JSValue) : completion string :=
  match v with
  | VUndefined => Normal "undefined"
  | VNull => Normal "null"
  | VBool true => Normal "true"
  | VBool false => Normal "false"
  | VNumber n => Normal (Number_toString n)
  | VStr s => Normal s
  | VArr elems =>
      match
        mapC (fun e => if isNullish e then Normal "" else ToString e) elems
      with
      | Normal strs => Normal (join "," strs)
      | Throw err => Throw err
      end
  | VObj props =>
      if hasOwnProperty props "toString" then Throw TypeError
      else Normal "[object Object]"
  end.

(** ** Property reads and [Object.entries] *)

(** [o.name] on an object given by its own properties: the value of the
    property, [undefined] when there is none.  The names read by the source
    ([skip], [top], [inlinecount], [expand], [orderBy], [key], [value],
    [id]) are on no built-in prototype, so own properties decide. *)
Fixpoint getProp (o : JSObject) (name : string) : JSValue :=
  match o with
  | [] => VUndefined
  | (k, v) :: rest => if k =? name then v else getProp rest name
  end.

(** The value of a decimal digit. *)
Definition digitValue (c : ascii) : option N :=
  let n := N_of_ascii c in
  if ((48 <=? n) && (n <=? 57))%N then Some (n - 48)%N else None.

Fixpoint digitsValue (acc : N) (s : string) : option N :=
  match s with
  | EmptyString => Some acc
  | String c rest =>
      match digitValue c with
      | Some d => digitsValue (10 * acc + d)%N rest
      | None => None
      end
  end.

(** A property key is an array index when it is the canonical decimal
    numeral (no sign, no leading zero) of an integer below 2^32 - 1. *)
Definition arrayIndex (k : string) : option N :=
  match k with
  | EmptyString => None
  | String "0" EmptyString => Some 0%N
  | String "0" _ => None
  | _ =>
      match digitsValue 0 k with
      | Some n => if (n <? 4294967295)%N then Some n else None
      | None => None
      end
  end.

Definition isArrayIndex (k : string) : bool :=
  match arrayIndex k with Some _ => true | None => false end.

Fixpoint insertByIndex (i : N) (e : string * JSValue)
    (l : list (N * (string * JSValue))) : list (N * (string * JSValue)) :=
  match l with
  | [] => [(i, e)]
  | (j, e') :: rest =>
      if (i <=? j)%N then (i, e) :: l else (j, e') :: insertByIndex i e rest
  end.

(** The properties whose key is an array index, by ascending index. *)
Fixpoint indexEntries (o : JSObject) : list (N * (string * JSValue)) :=
  match o with
  | [] => []
  | (k, v) :: rest =>
      match arrayIndex k with
      | Some i => insertByIndex i (k, v) (indexEntries rest)
      | None => indexEntries rest
      end
  end.

(** [Object.entries(o)]: the own properties in the order of
    OrdinaryOwnPropertyKeys, array-index keys first by ascending index, then
    every other key in creation order. *)
Definition Object_entries (o : JSObject) : list (string * JSValue) :=
  map snd (indexEntries o)
  ++ filter (fun e => negb (isArrayIndex (fst e))) o.

(** ** The builder's state *)

(** The two private fields of the class. *)
Record QueryBuilder : Type := mkQueryBuilder {
  arguments : list JSObject;
  joinedArgs : list string
}.

(** [new QueryBuilder()]. *)
Definition newQueryBuilder : QueryBuilder :=
  {| arguments := []; joinedArgs := [] |}.

(** A method body: from the state before to the completion and the state
    after.  The state is returned on a throw too. *)
Definition M (A : Type) : Type := QueryBuilder -> completion A * QueryBuilder.

#[global] Instance M_Monad : Monad M := {
  ret := fun A a q => (Normal a, q);
  bind := fun A B c f q =>
    match c q with
    | (Normal a, q') => f a q'
    | (Throw e, q') => (Throw e, q')
    end
}.

(** A computation that does not touch the builder. *)
Definition liftC {A : Type} (c : completion A) : M A := fun q => (c, q).

(** [this.joinedArgs.push(s)] and [this.arguments.push(arg)]. *)
Definition joinedArgs_push (s : string) : M unit :=
  fun q => (Normal tt,
            {| arguments := arguments q; joinedArgs := joinedArgs q ++ [s] |}).

Definition arguments_push (arg : JSObject) : M unit :=
  fun q => (Normal tt,
            {| arguments := arguments q ++ [arg]; joinedArgs := joinedArgs q |}).

(** [for (const x of xs) body], left when the body throws. *)
Fixpoint forOf {A : Type} (xs : list A) (body : A -> M unit) : M unit :=
  match xs with
  | [] => ret tt
  | x :: rest => body x ;; forOf rest body
  end.

(** ** The query builder *)

Module QB.

Definition SKIP_ARG : string := "$skip=".
Definition TOP_ARG : string := "$top=".
Definition INLINECOUNT_ARG : string := "$inlinecount=".
Definition EXPAND_ARG : string := "$expand=".
Definition ORDERBY_ARG : string := "$orderBy=".

(** The members of the set [DEFAULT_KEYS], as the source lists them. *)
Definition DEFAULT_KEYS : list string :=
  ["skip"; "top"; "inline"; "expand"; "orderBy"; "inlinecount"].

(** [Set.prototype.has]. *)
Definition Set_has (s : list string) (key : string) : bool :=
  existsb (String.eqb key) s.

Definition isDefaultKey (key : string) : bool := Set_has DEFAULT_KEYS key.

(** [item.name] for an arbitrary value: a [TypeError] on [undefined] and
    [null], the own property of an object, [undefined] on the other values
    (for the names [key], [value] and [id], which strings, numbers,
    booleans and arrays do not have). *)
Definition Get (item : JSValue) (name : string) : completion JSValue :=
  match item with
  | VUndefined | VNull => Throw TypeError
  | VObj props => Normal (getProp props name)
  | VBool _ | VNumber _ | VStr _ | VArr _ => Normal VUndefined
  end.

(** [x !== undefined]. *)
Definition isDefined (v : JSValue) : bool :=
  match v with VUndefined => false | _ => true end.

Definition isAttributeArg (item : JSValue) : completion bool :=
  k <- Get item "key" ;;
  if isDefined k
  then (v <- Get item "value" ;; ret (isDefined v))
  else ret false.

(** The template literal [`${arg.key}=${arg.value}`], evaluated from left
    to right. *)
Definition handleAttributeArgument (arg : JSValue) : M unit :=
  k <- liftC (Get arg "key") ;;
  ks <- liftC (ToString k) ;;
  v <- liftC (Get arg "value") ;;
  vs <- liftC (ToString v) ;;
  joinedArgs_push (ks ++ "=" ++ vs).

Definition handleArrayArg (key : string) (values : list JSValue) : M unit :=
  match values with
  | [] => ret tt
  | first :: _ =>
      isAttr <- liftC (isAttributeArg first) ;;
      if isAttr
      then forOf values handleAttributeArgument
      else forOf values
             (fun el =>
                s <- liftC (ToString el) ;;
                joinedArgs_push (key ++ "=" ++ s))
  end.

(** The body of the loop of [parseAdditionalArgs], for one entry [[k, v]].
    The first test is the one that ends in [continue]; the branch [VArr] is
    [Array.isArray(v)]. *)
Definition parseAdditionalArg (entry : string * JSValue) : M unit :=
  let (k, v) := entry in
  if isDefaultKey k || negb (isDefined v) then ret tt
  else
    match v with
    | VArr values => handleArrayArg k values
    | _ =>
        isAttr <- liftC (isAttributeArg v) ;;
        if isAttr then handleAttributeArgument v
        else (s <- liftC (ToString v) ;;
              joinedArgs_push (k ++ "=" ++ s))
    end.

Definition parseAdditionalArgs (arg : JSObject) : M unit :=
  forOf (Object_entries arg) parseAdditionalArg.

Definition parseArgument (arg : JSObject) : M unit :=
  (if ToBoolean (getProp arg "skip")
   then (s <- liftC (ToString (getProp arg "skip")) ;;
         joinedArgs_push (SKIP_ARG ++ s))
   else ret tt) ;;
  (if ToBoolean (getProp arg "top")
   then (s <- liftC (ToString (getProp arg "top")) ;;
         joinedArgs_push (TOP_ARG ++ s))
   else ret tt) ;;
  (if ToBoolean (getProp arg "inlinecount")
   then (s <- liftC (ToString (getProp arg "inlinecount")) ;;
         joinedArgs_push (INLINECOUNT_ARG ++ s))
   else ret tt) ;;
  (if ToBoolean (getProp arg "expand")
   then (s <- liftC (ToString (getProp arg "expand")) ;;
         joinedArgs_push (EXPAND_ARG ++ s))
   else ret tt) ;;
  (if ToBoolean (getProp arg "orderBy")
   then (s <- liftC (ToString (getProp arg "orderBy")) ;;
         joinedArgs_push (ORDERBY_ARG ++ s))
   else ret tt) ;;
  parseAdditionalArgs arg.

(** [addArgument] returns [this]: the builder after the call is the state
    component of the result. *)
Definition addArgument (arg : JSObject) : M unit :=
  arguments_push arg ;;
  parseArgument arg.

Definition getArguments : M (list JSObject) :=
  fun q => (Normal (arguments q), q).

Definition flush : M unit :=
  fun q => (Normal tt, {| arguments := []; joinedArgs := [] |}).

Definition build : M string :=
  fun q =>
    (Normal (if (List.length (joinedArgs q) <=? 0)%nat then ""
             else ("?" ++ join "&" (joinedArgs q))%string),
     q).

End QB.

(** ** The query normalizer *)

(** What [constructQuery] accepts: [string | QueryBuilder | undefined | null]. *)
Inductive QueryInput : Type :=
| QUndefined
| QNull
| QString (s : string)
| QBuilder (q : QueryBuilder).

(** [!query]. *)
Definition isFalsy (query : QueryInput) : bool :=
  match query with
  | QUndefined | QNull => true
  | QString s => s =? ""
  | QBuilder _ => false
  end.

Definition constructQuery (query : QueryInput) : completion string :=
  if isFalsy query then Normal ""
  else
    match query with
    | QString s => Normal s
    | QBuilder q => fst (QB.build q)
    | QUndefined | QNull => Throw TypeError
    end.

(** * The client

    [src/client.ts], class [WorkflowServiceClient]: the constructor,
    [getClient], the methods that take a query builder, the two methods
    with an [expandAttributes] flag, and [updateWorkflowInstanceList],
    which [deleteWorkflowInstances] calls.  The remote service is not part
    of the repository: what [cds.connect.to] and the verbs of the connected
    service answer is given by two functions of the events so far.  An
    [async] method is run on its own, from its call to the settlement of
    its promise; a rejected [await] is a throw. *)

Module Client.

Inductive Verb : Type := GET | POST | PATCH | PUT | DELETE.

(** A handle on the object [cds.connect.to] resolves to. *)
Definition Service : Type := nat.

(** What a method can throw: an error of the language, or the reason the
    environment rejected a promise with. *)
Inductive Thrown : Type :=
| JSThrown (e : JSError)
| Rejected (reason : JSValue).

(** What the client does to the outside, in order. *)
Inductive Event : Type :=
| Connect (binding : string)
| Request (service : Service) (verb : Verb) (path : string)
          (body : option JSValue)
| LogError (message : string) (e : Thrown).

Record WorkflowServiceClient : Type := mkClient {
  TASK_INSTANCES_URI : string;
  TASK_DEFINITIONS_URI : string;
  WORKFLOW_DEFINITIONS_URI : string;
  WORKFLOW_INSTANCES_URI : string;
  FORMS_URI : string;
  JOBS_URI : string;
  MESSAGES_URI : string;
  bindingDefinition : string;
  serviceConnection : option Service
}.

(** The client object and the events so far. *)
Record World : Type := mkWorld {
  this : WorkflowServiceClient;
  events : list Event
}.

Inductive result (A : Type) : Type :=
| Returned (a : A)
| Raised (e : Thrown).
Arguments Returned {A} a.
Arguments Raised {A} e.

Definition Async (A : Type) : Type := World -> result A * World.

#[global] Instance Async_Monad : Monad Async := {
  ret := fun A a w => (Returned a, w);
  bind := fun A B c f w =>
    match c w with
    | (Returned a, w') => f a w'
    | (Raised e, w') => (Raised e, w')
    end
}.

Definition raise {A : Type} (e : Thrown) : Async A := fun w => (Raised e, w).

(** [try { body } catch (e) { handler }]. *)
Definition tryCatch {A : Type} (body : Async A) (handler : Thrown -> Async A)
  : Async A :=
  fun w =>
    match body w with
    | (Returned a, w') => (Returned a, w')
    | (Raised e, w') => handler e w'
    end.

(** A computation of the builder's model, which touches no client state. *)
Definition liftJS {A : Type} (c : completion A) : Async A :=
  fun w =>
    match c with
    | Normal a => (Returned a, w)
    | Throw e => (Raised (JSThrown e), w)
    end.

(** [this.field]. *)
Definition readThis {A : Type} (field : WorkflowServiceClient -> A) : Async A :=
  fun w => (Returned (field (this w)), w).

Definition emit (ev : Event) : Async unit :=
  fun w => (Returned tt, {| this := this w; events := events w ++ [ev] |}).

Definition GENERIC_ERR_MSG : string :=
  "Communication with SAP BPA failed with error".

(** [LOGGER.error(message, e)]. *)
Definition LOGGER_error (message : string) (e : Thrown) : Async unit :=
  emit (LogError message e).

(** [new WorkflowServiceClient(binding, usePrefix)]; [usePrefix] is [true]
    when it is not given. *)
Definition constructor (binding : string) (usePrefix : option bool)
  : WorkflowServiceClient :=
  let usePrefix := match usePrefix with Some b => b | None => true end in
  let prefix := if usePrefix then "/v1" else "" in
  {| TASK_INSTANCES_URI := prefix ++ "/task-instances";
     TASK_DEFINITIONS_URI := prefix ++ "/task-definitions";
     WORKFLOW_DEFINITIONS_URI := prefix ++ "/workflow-definitions";
     WORKFLOW_INSTANCES_URI := prefix ++ "/workflow-instances";
     FORMS_URI := prefix ++ "/forms";
     JOBS_URI := prefix ++ "/jobs";
     MESSAGES_URI := prefix ++ "/messages";
     bindingDefinition := binding;
     serviceConnection := None |}.

(** [queryBuilder?.build() ?? ""] for an optional builder; [build] returns
    a string, so [??] only serves the missing builder. *)
Definition optionalQuery (queryBuilder : option QueryBuilder) : Async string :=
  match queryBuilder with
  | None => ret ""
  | Some q => liftJS (fst (QB.build q))
  end.

(** [[...].map(f)], left at the first element on which [f] throws. *)
Fixpoint Array_map (f : JSValue -> completion JSValue) (els : list JSValue)
  : completion (list JSValue) :=
  match els with
  | [] => ret []
  | el :: rest =>
      y <- f el ;;
      ys <- Array_map f rest ;;
      ret (y :: ys)
  end.

(** [workflows?.map((el) => ({ id: el.id, deleted: true })) ?? []].  A
    value that is neither missing nor an array has no [map] to call. *)
Definition deletionPayload (workflows : JSValue) : completion JSValue :=
  match workflows with
  | VUndefined | VNull => ret (VArr [])
  | VArr els =>
      mapped <- Array_map
                  (fun el =>
                     id <- QB.Get el "id" ;;
                     ret (VObj [("id", id); ("deleted", VBool true)]))
                  els ;;
      ret (VArr mapped)
  | VBool _ | VNumber _ | VStr _ | VObj _ => Throw TypeError
  end.

Section Environment.

(** What [cds.connect.to(binding)] settles with, and what a verb of the
    connected service settles with, given the events so far. *)
Variable connect_to : list Event -> string -> Service + JSValue.
Variable send :
  list Event -> Service -> Verb -> string -> option JSValue
  -> JSValue + JSValue.

(** [await cds.connect.to(binding)]. *)
Definition cds_connect_to (binding : string) : Async Service :=
  fun w =>
    let w' := {| this := this w; events := events w ++ [Connect binding] |} in
    match connect_to (events w) binding with
    | inl service => (Returned service, w')
    | inr reason => (Raised (Rejected reason), w')
    end.

(** [await client.get(path)] and the other verbs. *)
Definition service_call (service : Service) (verb : Verb) (path : string)
    (body : option JSValue) : Async JSValue :=
  fun w =>
    let w' := {| this := this w;
                 events := events w ++ [Request service verb path body] |} in
    match send (events w) service verb path body with
    | inl res => (Returned res, w')
    | inr reason => (Raised (Rejected reason), w')
    end.

Definition set_serviceConnection (service : Service) : Async unit :=
  fun w =>
    (Returned tt,
     {| this :=
          {| TASK_INSTANCES_URI := TASK_INSTANCES_URI (this w);
             TASK_DEFINITIONS_URI := TASK_DEFINITIONS_URI (this w);
             WORKFLOW_DEFINITIONS_URI := WORKFLOW_DEFINITIONS_URI (this w);
             WORKFLOW_INSTANCES_URI := WORKFLOW_INSTANCES_URI (this w);
             FORMS_URI := FORMS_URI (this w);
             JOBS_URI := JOBS_URI (this w);
             MESSAGES_URI := MESSAGES_URI (this w);
             bindingDefinition := bindingDefinition (this w);
             serviceConnection := Some service |};
        events := events w |}).

Definition getClient : Async Service :=
  cached <- readThis serviceConnection ;;
  match cached with
  | Some service => ret service
  | None =>
      binding <- readThis bindingDefinition ;;
      service <- cds_connect_to binding ;;
      set_serviceConnection service ;;
      ret service
  end.

(** The [catch] block every method has. *)
Definition logAndRethrow {A : Type} (e : Thrown) : Async A :=
  LOGGER_error GENERIC_ERR_MSG e ;; raise e.

Definition getTaskList (queryBuilder : option QueryBuilder) : Async JSValue :=
  tryCatch
    (client <- getClient ;;
     uri <- readThis TASK_INSTANCES_URI ;;
     q <- optionalQuery queryBuilder ;;
     res <- service_call client GET (uri ++ q) None ;;
     ret res)
    logAndRethrow.

Definition findTaskInstance (id : string) (expandAttributes : option bool)
  : Async JSValue :=
  let expandAttributes :=
    match expandAttributes with Some b => b | None => false end in
  tryCatch
    (client <- getClient ;;
     uri <- readThis TASK_INSTANCES_URI ;;
     res <- service_call client GET
              (uri ++ "/" ++ id
               ++ (if expandAttributes then "?$expand=attributes" else ""))
              None ;;
     ret res)
    logAndRethrow.

Definition getTaskDefinitionList (queryBuilder : option QueryBuilder)
  : Async JSValue :=
  tryCatch
    (client <- getClient ;;
     uri <- readThis TASK_DEFINITIONS_URI ;;
     q <- optionalQuery queryBuilder ;;
     res <- service_call client GET (uri ++ q) None ;;
     ret res)
    logAndRethrow.

Definition getWorkflowDefinitionList (queryBuilder : option QueryBuilder)
  : Async JSValue :=
  tryCatch
    (client <- getClient ;;
     uri <- readThis WORKFLOW_DEFINITIONS_URI ;;
     q <- optionalQuery queryBuilder ;;
     res <- service_call client GET (uri ++ q) None ;;
     ret res)
    logAndRethrow.

Definition findWorkflowDefinitionVersionList (id : string)
    (queryBuilder : option QueryBuilder) : Async JSValue :=
  tryCatch
    (client <- getClient ;;
     uri <- readThis WORKFLOW_DEFINITIONS_URI ;;
     q <- optionalQuery queryBuilder ;;
     res <- service_call client GET (uri ++ "/" ++ id ++ "/versions" ++ q) None ;;
     ret res)
    logAndRethrow.

Definition getWorkflowInstanceList (queryBuilder : option QueryBuilder)
  : Async JSValue :=
  tryCatch
    (client <- getClient ;;
     uri <- readThis WORKFLOW_INSTANCES_URI ;;
     q <- optionalQuery queryBuilder ;;
     res <- service_call client GET (uri ++ q) None ;;
     ret res)
    logAndRethrow.

Definition updateWorkflowInstanceList (payload : JSValue) : Async unit :=
  tryCatch
    (client <- getClient ;;
     uri <- readThis WORKFLOW_INSTANCES_URI ;;
     service_call client PATCH uri (Some payload) ;;
     ret tt)
    logAndRethrow.

Definition deleteWorkflowInstances (queryBuilder : QueryBuilder) : Async unit :=
  tryCatch
    (workflows <- getWorkflowInstanceList (Some queryBuilder) ;;
     payload <- liftJS (deletionPayload workflows) ;;
     updateWorkflowInstanceList payload)
    logAndRethrow.

Definition findWorkflowInstance (id : string) (expandAttributes : option bool)
  : Async JSValue :=
  let expandAttributes :=
    match expandAttributes with Some b => b | None => false end in
  tryCatch
    (client <- getClient ;;
     uri <- readThis WORKFLOW_INSTANCES_URI ;;
     res <- service_call client GET
              (uri ++ "/" ++ id
               ++ (if expandAttributes then "?$expand=attributes" else ""))
              None ;;
     ret res)
    logAndRethrow.

End Environment.

End Client.

(** * Vocabulary of the statements *)

(** ** Running a method on a new builder *)

Definition run {A : Type} (m : M A) : completion A * QueryBuilder :=
  m newQueryBuilder.

(** The string [build] returns after the calls [m], on a new builder. *)
Definition built (m : M unit) : completion string :=
  fst (run (m ;; QB.build)).

(** ** What a method appends *)

(** [emits m c fs]: from every state, [m] ends with [c], leaves the
    argument history as it was and has appended exactly [fs] to the
    fragments. *)
Definition emits {A : Type} (m : M A) (c : completion A) (fs : list string)
  : Prop :=
  forall q, m q = (c, {| arguments := arguments q;
                         joinedArgs := joinedArgs q ++ fs |}).

(** The completion and the fragments of [m] on a new builder. *)
Definition outcome {A : Type} (m : M A) : completion A := fst (run m).
Definition emitted {A : Type} (m : M A) : list string :=
  joinedArgs (snd (run m)).

Definition appending {A : Type} (m : M A) : Prop :=
  exists c fs, emits m c fs.

(** [pushes P m]: from every state, what [m] appends to the fragments
    satisfies [P], whether [m] returns or throws. *)
Definition pushes {A : Type} (P : string -> Prop) (m : M A) : Prop :=
  exists c fs, emits m c fs /\ Forall P fs.

(** ** String forms *)

(** A value has a string form when [ToString] returns on it. *)
Definition stringable (v : JSValue) : bool := negb (throws (ToString v)).

(** The same, read off the value: an object has a string form when it has
    no own property [toString], a sequence when each of its elements is
    [null], [undefined] or has a string form, every other value has one. *)
Fixpoint printable (v : JSValue) : bool :=
  match v with
  | VObj props => negb (hasOwnProperty props "toString")
  | VArr elems => forallb (fun e => isNullish e || printable e) elems
  | _ => true
  end.

(** An object that has no string form. *)
Definition shadowed : JSValue := VObj [("toString", VStr "x")].

(** The string [`${el.key}=${el.value}`] of an element. *)
Definition attributeString (el : JSValue) : completion string :=
  k <- QB.Get el "key" ;;
  ks <- ToString k ;;
  v <- QB.Get el "value" ;;
  vs <- ToString v ;;
  ret (ks ++ "=" ++ vs)%string.

(** The fragment of an attribute pair: its [key], "=", its [value]. *)
Definition pairFragment (pair : JSObject) : completion string :=
  attributeString (VObj pair).

(** ** What one call of [addArgument] appends *)

(** The five keys [parseArgument] reads. *)
Definition defaultNames : list string :=
  ["skip"; "top"; "inlinecount"; "expand"; "orderBy"].

(** The statement [parseArgument] has for each default key, for the prefix
    [prefix] and the value [v] of the key. *)
Definition defaultStatement (prefix : string) (v : JSValue) : M unit :=
  if ToBoolean v
  then (s <- liftC (ToString v) ;; joinedArgs_push (prefix ++ s))
  else ret tt.

(** The fragments of a default key whose value is [v]: none when [v] is
    falsy, one, the prefix then the string form of [v], when [v] is truthy
    and has a string form. *)
Definition defaultFragment (prefix : string) (v : JSValue) : list string :=
  if ToBoolean v
  then match ToString v with
       | Normal s => [(prefix ++ s)%string]
       | Throw _ => []
       end
  else [].

(** A default key makes the call throw when its value is truthy and has
    no string form. *)
Definition defaultThrows (v : JSValue) : bool :=
  ToBoolean v && throws (ToString v).

(** The prefixes and values of the five statements, in their order. *)
Definition defaultSteps (arg : JSObject) : list (string * JSValue) :=
  [(QB.SKIP_ARG, getProp arg "skip");
   (QB.TOP_ARG, getProp arg "top");
   (QB.INLINECOUNT_ARG, getProp arg "inlinecount");
   (QB.EXPAND_ARG, getProp arg "expand");
   (QB.ORDERBY_ARG, getProp arg "orderBy")].

(** The statements of [steps] one after the other, then [next]. *)
Fixpoint runSteps (steps : list (string * JSValue)) (next : M unit) : M unit :=
  match steps with
  | [] => next
  | (prefix, v) :: rest => defaultStatement prefix v ;; runSteps rest next
  end.

(** No default key makes the call throw. *)
Definition defaultsComplete (arg : JSObject) : bool :=
  forallb (fun step => negb (defaultThrows (snd step))) (defaultSteps arg).

(** The fragments of the steps up to the first one that throws. *)
Fixpoint stepsFragments (steps : list (string * JSValue)) : list string :=
  match steps with
  | [] => []
  | (prefix, v) :: rest =>
      if defaultThrows v then []
      else defaultFragment prefix v ++ stepsFragments rest
  end.

(** The fragments the first pass appends for [arg]. *)
Definition defaultFragments (arg : JSObject) : list string :=
  stepsFragments (defaultSteps arg).

(** The fragments the second pass appends for [arg], when it is reached. *)
Definition additionalFragments (arg : JSObject) : list string :=
  emitted (QB.parseAdditionalArgs arg).

(** All the fragments one call of [addArgument] appends for [arg]. *)
Definition fragmentsOf (arg : JSObject) : list string :=
  emitted (QB.parseArgument arg).

(** The elements the loop reaches: all of them up to and including the
    first one on which the body throws. *)
Fixpoint visited {A : Type} (body : A -> M unit) (xs : list A) : list A :=
  match xs with
  | [] => []
  | x :: rest =>
      if throws (outcome (body x)) then [x] else x :: visited body rest
  end.

(** The fragments the loop body appends for one entry, and whether it
    throws on it. *)
Definition entryFragments (entry : string * JSValue) : list string :=
  emitted (QB.parseAdditionalArg entry).

Definition entryThrows (entry : string * JSValue) : bool :=
  throws (outcome (QB.parseAdditionalArg entry)).

(** The entries whose key is not an array index, and the index of a key
    that is one. *)
Definition isNamedKey (entry : string * JSValue) : bool :=
  negb (isArrayIndex (fst entry)).

Definition keyIndex (entry : string * JSValue) : N :=
  match arrayIndex (fst entry) with Some i => i | None => 0%N end.

(** ** Which arguments make the call throw *)

Definition isArray (v : JSValue) : bool :=
  match v with VArr _ => true | _ => false end.

(** An object with both fields [key] and [value] defined. *)
Definition hasKeyAndValue (pair : JSObject) : bool :=
  QB.isDefined (getProp pair "key") && QB.isDefined (getProp pair "value").

(** [isPair v]: [isAttributeArg] answers [true] on [v]. *)
Definition isPair (v : JSValue) : bool :=
  match QB.isAttributeArg v with Normal b => b | Throw _ => false end.

(** An element handled as an attribute pair makes the call throw when it
    is [null] or [undefined], or an object whose [key] or [value] has no
    string form. *)
Definition attributeThrows (el : JSValue) : bool :=
  match el with
  | VUndefined | VNull => true
  | VObj fields =>
      negb (stringable (getProp fields "key"))
      || negb (stringable (getProp fields "value"))
  | _ => false
  end.

(** The values on which the loop body throws at a custom key: [null]; a
    sequence that starts with [null] or [undefined]; a sequence that starts
    with an attribute pair and holds an element that throws as an
    attribute; a sequence that starts otherwise and holds an element
    without string form; an attribute pair whose [key] or [value] has no
    string form; another object without string form. *)
Definition faultyValue (v : JSValue) : bool :=
  match v with
  | VNull => true
  | VArr [] => false
  | VArr (first :: rest) =>
      if isNullish first then true
      else if isPair first then existsb attributeThrows (first :: rest)
      else existsb (fun el => negb (stringable el)) (first :: rest)
  | VObj fields =>
      if hasKeyAndValue fields then attributeThrows v
      else negb (stringable v)
  | _ => false
  end.

Definition faultyEntry (entry : string * JSValue) : bool :=
  negb (QB.isDefaultKey (fst entry)) && faultyValue (snd entry).

(** The arguments on which [addArgument] throws. *)
Definition faultyArgument (arg : JSObject) : bool :=
  negb (defaultsComplete arg) || existsb faultyEntry arg.

(** No argument of the list makes [addArgument] throw. *)
Definition noneFaulty (args : list JSObject) : bool :=
  forallb (fun arg => negb (faultyArgument arg)) args.

(** ** Attribute pairs, sequences and examples *)

(** The sequences the loop body flattens under the key: the empty one and
    those on whose first element [isAttributeArg] answers [false]. *)
Definition firstIsNoPair (values : list JSValue) : Prop :=
  match values with
  | [] => True
  | first :: _ => QB.isAttributeArg first = Normal false
  end.

(** The argument of the specification's example for the default keys. *)
Definition exampleDefaults : JSObject :=
  [("skip", VNum 10); ("top", VNum 2); ("inlinecount", VStr "allpages");
   ("expand", VStr "x"); ("orderBy", VStr "id desc")].

(** The entries whose value is not [undefined]. *)
Definition definedEntry (entry : string * JSValue) : bool :=
  QB.isDefined (snd entry).

Fixpoint containsChar (c : ascii) (s : string) : bool :=
  match s with
  | EmptyString => false
  | String c' rest => Ascii.eqb c c' || containsChar c rest
  end.

(** A fragment of the shape name=value holds the character "=". *)
Definition hasEquals (s : string) : bool := containsChar "=" s.

Definition shaped (s : string) : Prop := hasEquals s = true.

(** The inputs on which [constructQuery] gives the empty string. *)
Definition emptyInput (query : QueryInput) : bool :=
  match query with
  | QUndefined | QNull => true
  | QString s => s =? ""
  | QBuilder q => match joinedArgs q with [] => true | _ :: _ => false end
  end.

(** ** Vocabulary of the client's properties *)

(** The world after the further events [evs]. *)
Definition after (w : Client.World) (evs : list Client.Event) : Client.World :=
  {| Client.this := Client.this w; Client.events := Client.events w ++ evs |}.

(** The query string of an optional builder: nothing without a builder or
    without fragments, otherwise "?" and the fragments joined by "&". *)
Definition queryOf (queryBuilder : option QueryBuilder) : string :=
  match queryBuilder with
  | None => ""
  | Some q =>
      match joinedArgs q with
      | [] => ""
      | _ :: _ => "?" ++ join "&" (joinedArgs q)
      end
  end.

Definition isLogError (ev : Client.Event) : bool :=
  match ev with Client.LogError _ _ => true | _ => false end.

(** [quiet m]: [m] logs nothing, however it ends. *)
Definition quiet {A : Type} (m : Client.Async A) : Prop :=
  forall w r w', m w = (r, w') ->
    exists evs,
      Client.events w' = Client.events w ++ evs
      /\ forallb (fun ev => negb (isLogError ev)) evs = true.

(** [logsAndRethrows m]: whenever [m] throws [e], the last thing it did was
    to log [e] with the generic message, and it logged nothing else;
    whenever it returns, it logged nothing. *)
Definition logsAndRethrows {A : Type} (m : Client.Async A) : Prop :=
  forall w r w', m w = (r, w') ->
    exists evs,
      forallb (fun ev => negb (isLogError ev)) evs = true
      /\ Client.events w'
         = Client.events w
           ++ evs
           ++ match r with
              | Client.Raised e =>
                  [Client.LogError Client.GENERIC_ERR_MSG e]
              | Client.Returned _ => []
              end.

(** The entry of the deletion payload for one workflow instance. *)
Definition deletionEntry (el : JSValue) : JSValue :=
  VObj [("id", match el with VObj fields => getProp fields "id"
                           | _ => VUndefined end);
        ("deleted", VBool true)].

(** An environment whose connection attempts always succeed with service 1
    and whose service answers every request with its path. *)
Definition echo_connect (evs : list Client.Event) (binding : string)
  : Client.Service + JSValue := inl 1%nat.

Definition echo_send (evs : list Client.Event) (service : Client.Service)
    (verb : Client.Verb) (path : string) (body : option JSValue)
  : JSValue + JSValue := inl (VStr path).

(** An environment whose service rejects every request with "503". *)
Definition down_send (evs : list Client.Event) (service : Client.Service)
    (verb : Client.Verb) (path : string) (body : option JSValue)
  : JSValue + JSValue := inr (VStr "503").
(** An environment whose connection attempts are all rejected. *)
Definition refuse_connect (evs : list Client.Event) (binding : string)
  : Client.Service + JSValue := inr (VStr "no destination").

(** A client as the README makes it, before and after its first
    connection, and the builder of the README's example. *)
Definition freshWorld : Client.World :=
  {| Client.this := Client.constructor "workflow-api" None;
     Client.events := [] |}.

Definition connectedWorld : Client.World :=
  snd (Client.set_serviceConnection 1%nat freshWorld).

Definition readmeBuilder : QueryBuilder :=
  snd (QB.addArgument
         [("top", VNum 200); ("skip", VNum 100);
          ("dueDate", VStr "2025-02-01")]
         newQueryBuilder).

(** * Lemmas *)

(** ** The model on examples, and the tests of the repository *)

Example ToString_num : ToString (VNum 10) = Normal "10".
Proof. reflexivity. Qed.

Example ToString_arr :
  ToString (VArr [VStr "a"; VNull; VArr [VNum (-3); VNum 0]; VObj []])
  = Normal "a,,-3,0,[object Object]".
Proof. reflexivity. Qed.

Example ToString_max : ToString (VNum 9007199254740991) = Normal "9007199254740991".
Proof. reflexivity. Qed.

Example ToString_shadowed : ToString shadowed = Throw TypeError.
Proof. reflexivity. Qed.

Example ToString_arr_shadowed :
  ToString (VArr [VStr "a"; VArr [shadowed]]) = Throw TypeError.
Proof. reflexivity. Qed.

Example Object_entries_named :
  Object_entries [("b", VNum 1); ("a", VNum 2)] = [("b", VNum 1); ("a", VNum 2)].
Proof. reflexivity. Qed.

Example Object_entries_indices :
  Object_entries [("b", VNum 1); ("10", VNum 2); ("01", VNum 3); ("9", VNum 4)]
  = [("9", VNum 4); ("10", VNum 2); ("b", VNum 1); ("01", VNum 3)].
Proof. reflexivity. Qed.

Example test_default_args :
  built (QB.addArgument
           [("skip", VNum 10); ("top", VNum 2); ("inlinecount", VStr "allpages");
            ("expand", VStr "something"); ("orderBy", VStr "id desc")])
  = Normal "?$skip=10&$top=2&$inlinecount=allpages&$expand=something&$orderBy=id desc".
Proof. reflexivity. Qed.

Example test_task_args :
  built (QB.addArgument
           [("skip", VNum 10); ("top", VNum 2); ("inlinecount", VStr "allpages");
            ("expand", VStr "something"); ("orderBy", VStr "id desc");
            ("workflowInstanceId", VStr "mambonumber5");
            ("dueDate", VStr "2025-02-01");
            ("priority", VArr [VStr "LOW"; VStr "MEDIUM"])])
  = Normal "?$skip=10&$top=2&$inlinecount=allpages&$expand=something&$orderBy=id desc&workflowInstanceId=mambonumber5&dueDate=2025-02-01&priority=LOW&priority=MEDIUM".
Proof. reflexivity. Qed.

Example test_attribute_list :
  built (QB.addArgument
           [("skip", VNum 10); ("definitionId", VStr "some-definition");
            ("attributes",
             VArr [VObj [("key", VStr "random"); ("value", VStr "value")];
                   VObj [("key", VStr "potato"); ("value", VStr "carrot")]])])
  = Normal "?$skip=10&definitionId=some-definition&random=value&potato=carrot".
Proof. reflexivity. Qed.

Example test_chain :
  built (QB.addArgument [("skip", VNum 2)] ;; QB.addArgument [("top", VNum 10)])
  = Normal "?$skip=2&$top=10".
Proof. reflexivity. Qed.

Example test_flush_reuse :
  built (QB.addArgument [("skip", VNum 2)] ;; QB.flush ;;
         QB.addArgument [("top", VNum 5)])
  = Normal "?$top=5".
Proof. reflexivity. Qed.

(** ** Fragments are only ever appended *)

Section Appending.

Context {A B : Type}.

Lemma emits_ret (a : A) : emits (ret a) (Normal a) [].
Proof.
  intros [h j]. simpl. now rewrite app_nil_r.
Qed.

Lemma emits_liftC (c : completion A) : emits (liftC c) c [].
Proof.
  intros [h j]. unfold liftC. simpl. now rewrite app_nil_r.
Qed.

Lemma emits_bind_normal (m : M A) (f : A -> M B) a fs c gs :
  emits m (Normal a) fs -> emits (f a) c gs ->
  emits (x <- m ;; f x) c (fs ++ gs).
Proof.
  intros Hm Hf q. simpl. rewrite Hm, Hf. simpl. now rewrite app_assoc.
Qed.

Lemma emits_bind_throw (m : M A) (f : A -> M B) e fs :
  emits m (Throw e) fs -> emits (x <- m ;; f x) (Throw e) fs.
Proof.
  intros Hm q. simpl. now rewrite Hm.
Qed.

Lemma appending_bind (m : M A) (f : A -> M B) :
  appending m -> (forall a, appending (f a)) -> appending (x <- m ;; f x).
Proof.
  intros [[a | e] [fs Hm]] Hf.
  - destruct (Hf a) as [c [gs Hg]].
    exists c, (fs ++ gs). eapply emits_bind_normal; eauto.
  - exists (Throw e), fs. now apply emits_bind_throw.
Qed.

(** What [m] emits from any state is what it emits on a new builder. *)
Lemma appending_emits (m : M A) :
  appending m -> emits m (outcome m) (emitted m).
Proof.
  intros [c [fs Hm]]. unfold outcome, emitted, run.
  rewrite (Hm newQueryBuilder). simpl. exact Hm.
Qed.

End Appending.

Lemma emits_outcome {A : Type} (m : M A) c fs : emits m c fs -> outcome m = c.
Proof. intros H. unfold outcome, run. now rewrite H. Qed.

Lemma emits_emitted {A : Type} (m : M A) c fs : emits m c fs -> emitted m = fs.
Proof. intros H. unfold emitted, run. now rewrite H. Qed.

Lemma emits_push (s : string) : emits (joinedArgs_push s) (Normal tt) [s].
Proof. intros q. reflexivity. Qed.

(** A string is computed, then pushed. *)
Lemma emits_stringify (c : completion string) (wrap : string -> string) :
  emits (s <- liftC c ;; joinedArgs_push (wrap s))
        (match c with Normal _ => Normal tt | Throw e => Throw e end)
        (match c with Normal s => [wrap s] | Throw _ => [] end).
Proof.
  destruct c as [s | e].
  - change [wrap s] with ([] ++ [wrap s]).
    eapply emits_bind_normal; [apply emits_liftC | apply emits_push].
  - apply emits_bind_throw, emits_liftC.
Qed.

Lemma appending_ret {A : Type} (a : A) : appending (ret a).
Proof. eexists _, _. apply emits_ret. Qed.

Lemma appending_liftC {A : Type} (c : completion A) : appending (liftC c).
Proof. eexists _, _. apply emits_liftC. Qed.

Lemma appending_push (s : string) : appending (joinedArgs_push s).
Proof. eexists _, _. apply emits_push. Qed.

Lemma appending_stringify (c : completion string) (wrap : string -> string) :
  appending (s <- liftC c ;; joinedArgs_push (wrap s)).
Proof. eexists _, _. apply emits_stringify. Qed.

Lemma appending_if {A : Type} (b : bool) (m1 m2 : M A) :
  appending m1 -> appending m2 -> appending (if b then m1 else m2).
Proof. now destruct b. Qed.

Lemma appending_forOf {A : Type} (xs : list A) (body : A -> M unit) :
  (forall x, appending (body x)) -> appending (forOf xs body).
Proof.
  intros Hb. induction xs as [| x rest IH]; simpl.
  - apply appending_ret.
  - apply appending_bind; auto.
Qed.

Create HintDb appending.
#[global] Hint Resolve appending_ret appending_liftC appending_push
  appending_stringify appending_if appending_forOf : appending.
#[global] Hint Extern 2 (appending (bind _ _)) =>
  apply appending_bind; [| intros ?] : appending.

Lemma appending_handleAttributeArgument arg :
  appending (QB.handleAttributeArgument arg).
Proof.
  unfold QB.handleAttributeArgument.
  repeat (apply appending_bind; [apply appending_liftC | intros ?]).
  apply appending_push.
Qed.

Lemma appending_handleArrayArg key values :
  appending (QB.handleArrayArg key values).
Proof.
  unfold QB.handleArrayArg. destruct values as [| first rest].
  - auto with appending.
  - apply appending_bind; [auto with appending |].
    intros isAttr. apply appending_if; apply appending_forOf; intros el.
    + apply appending_handleAttributeArgument.
    + apply (appending_stringify _ (fun s => key ++ "=" ++ s)%string).
Qed.

Lemma appending_parseAdditionalArg entry :
  appending (QB.parseAdditionalArg entry).
Proof.
  destruct entry as [k v]. unfold QB.parseAdditionalArg.
  apply appending_if; [auto with appending |].
  destruct v;
    try (apply appending_bind; [auto with appending |];
         intros isAttr; apply appending_if;
         [apply appending_handleAttributeArgument
         | apply (appending_stringify _ (fun s => k ++ "=" ++ s)%string)]).
  apply appending_handleArrayArg.
Qed.

Lemma appending_parseAdditionalArgs arg :
  appending (QB.parseAdditionalArgs arg).
Proof.
  unfold QB.parseAdditionalArgs. apply appending_forOf.
  apply appending_parseAdditionalArg.
Qed.

Lemma appending_defaultStatement prefix v :
  appending (defaultStatement prefix v).
Proof.
  unfold defaultStatement. apply appending_if; [| apply appending_ret].
  apply (appending_stringify _ (fun s => prefix ++ s)%string).
Qed.

Lemma appending_parseArgument arg : appending (QB.parseArgument arg).
Proof.
  change (QB.parseArgument arg)
    with (runSteps (defaultSteps arg) (QB.parseAdditionalArgs arg)).
  cbn [runSteps defaultSteps].
  repeat (apply appending_bind; [apply appending_defaultStatement | intros _]).
  apply appending_parseAdditionalArgs.
Qed.

(** ** One call of [addArgument] *)

(** A call appends the argument to the history and the fragments of the
    argument to the fragments, and ends as [parseArgument] ends on a new
    builder. *)
Lemma addArgument_eq (arg : JSObject) (q : QueryBuilder) :
  QB.addArgument arg q
  = (outcome (QB.parseArgument arg),
     {| arguments := arguments q ++ [arg];
        joinedArgs := joinedArgs q ++ fragmentsOf arg |}).
Proof.
  unfold QB.addArgument. simpl. unfold arguments_push.
  now rewrite (appending_emits _ (appending_parseArgument arg)).
Qed.

Lemma emits_defaultStatement (prefix : string) (v : JSValue) :
  emits (defaultStatement prefix v)
        (if defaultThrows v then Throw TypeError else Normal tt)
        (defaultFragment prefix v).
Proof.
  unfold defaultStatement, defaultThrows, defaultFragment.
  destruct (ToBoolean v); cbn [andb]; [| apply (emits_ret tt)].
  pose proof (emits_stringify (ToString v) (fun s => prefix ++ s)%string) as H.
  destruct (ToString v) as [s | []]; exact H.
Qed.

Lemma defaultFragment_throws (prefix : string) (v : JSValue) :
  defaultThrows v = true -> defaultFragment prefix v = [].
Proof.
  unfold defaultThrows, defaultFragment. destruct (ToBoolean v); [| easy].
  now destruct (ToString v).
Qed.

Lemma emits_runSteps (steps : list (string * JSValue)) (next : M unit) c fs :
  emits next c fs ->
  emits (runSteps steps next)
        (if forallb (fun step => negb (defaultThrows (snd step))) steps
         then c else Throw TypeError)
        (stepsFragments steps
         ++ if forallb (fun step => negb (defaultThrows (snd step))) steps
            then fs else []).
Proof.
  intros Hn. induction steps as [| [prefix v] rest IH];
    cbn [runSteps forallb stepsFragments snd]; [exact Hn |].
  pose proof (emits_defaultStatement prefix v) as Hs.
  destruct (defaultThrows v) eqn:E; cbn [negb andb].
  - rewrite (defaultFragment_throws prefix v E) in Hs.
    now apply emits_bind_throw.
  - rewrite <- app_assoc. eapply emits_bind_normal; [exact Hs | exact IH].
Qed.

(** What [parseArgument] does: the first pass up to the first default key
    that throws, then, if none did, the second pass. *)
Lemma emits_parseArgument (arg : JSObject) :
  emits (QB.parseArgument arg)
        (if defaultsComplete arg then outcome (QB.parseAdditionalArgs arg)
         else Throw TypeError)
        (defaultFragments arg
         ++ if defaultsComplete arg then additionalFragments arg else []).
Proof.
  change (QB.parseArgument arg)
    with (runSteps (defaultSteps arg) (QB.parseAdditionalArgs arg)).
  apply emits_runSteps.
  apply appending_emits, appending_parseAdditionalArgs.
Qed.

Lemma outcome_parseArgument (arg : JSObject) :
  outcome (QB.parseArgument arg)
  = if defaultsComplete arg then outcome (QB.parseAdditionalArgs arg)
    else Throw TypeError.
Proof. apply (emits_outcome _ _ _ (emits_parseArgument arg)). Qed.

Lemma fragmentsOf_split (arg : JSObject) :
  fragmentsOf arg
  = defaultFragments arg
    ++ if defaultsComplete arg then additionalFragments arg else [].
Proof. apply (emits_emitted _ _ _ (emits_parseArgument arg)). Qed.

Lemma stepsFragments_complete (steps : list (string * JSValue)) :
  forallb (fun step => negb (defaultThrows (snd step))) steps = true ->
  stepsFragments steps
  = flat_map (fun step => defaultFragment (fst step) (snd step)) steps.
Proof.
  induction steps as [| [prefix v] rest IH]; [reflexivity |].
  cbn [forallb stepsFragments flat_map fst snd]. intros H.
  apply andb_true_iff in H as [Hv Hr]. apply negb_true_iff in Hv.
  now rewrite Hv, IH.
Qed.

(** When no default key throws, the first pass appends the fragments of
    the five keys and the second pass follows. *)
Lemma addArgument_complete (arg : JSObject) (q : QueryBuilder) :
  defaultsComplete arg = true ->
  QB.addArgument arg q
  = (outcome (QB.parseAdditionalArgs arg),
     {| arguments := arguments q ++ [arg];
        joinedArgs :=
          joinedArgs q
          ++ defaultFragment QB.SKIP_ARG (getProp arg "skip")
          ++ defaultFragment QB.TOP_ARG (getProp arg "top")
          ++ defaultFragment QB.INLINECOUNT_ARG (getProp arg "inlinecount")
          ++ defaultFragment QB.EXPAND_ARG (getProp arg "expand")
          ++ defaultFragment QB.ORDERBY_ARG (getProp arg "orderBy")
          ++ additionalFragments arg |}).
Proof.
  intros H. rewrite addArgument_eq, outcome_parseArgument, fragmentsOf_split.
  rewrite H. unfold defaultFragments.
  rewrite (stepsFragments_complete _ H).
  cbn [defaultSteps flat_map fst snd]. rewrite app_nil_r.
  now rewrite <- !app_assoc.
Qed.

(** When a default key throws, so does the call, before the second pass. *)
Lemma addArgument_incomplete (arg : JSObject) (q : QueryBuilder) :
  defaultsComplete arg = false ->
  QB.addArgument arg q
  = (Throw TypeError,
     {| arguments := arguments q ++ [arg];
        joinedArgs := joinedArgs q ++ defaultFragments arg |}).
Proof.
  intros H. rewrite addArgument_eq, outcome_parseArgument, fragmentsOf_split.
  rewrite H. now rewrite app_nil_r.
Qed.

(** ** The loop over the entries *)

Section ForOf.

Context {A : Type} (body : A -> M unit).
Hypothesis body_appending : forall x, appending (body x).

Lemma emitted_forOf (xs : list A) :
  emitted (forOf xs body)
  = flat_map (fun x => emitted (body x)) (visited body xs).
Proof.
  induction xs as [| x rest IH]; [reflexivity |].
  pose proof (appending_emits _ (body_appending x)) as Hx.
  pose proof (appending_emits _ (appending_forOf rest body body_appending)) as Hr.
  unfold emitted at 1, run. cbn [forOf visited].
  destruct (outcome (body x)) as [[] | e] eqn:E; cbn [throws].
  - rewrite (emits_bind_normal _ _ _ _ _ _ Hx Hr newQueryBuilder).
    cbn. now rewrite IH.
  - rewrite (emits_bind_throw _ _ _ _ Hx newQueryBuilder).
    cbn. now rewrite app_nil_r.
Qed.

Lemma throws_forOf (xs : list A) :
  throws (outcome (forOf xs body))
  = existsb (fun x => throws (outcome (body x))) xs.
Proof.
  induction xs as [| x rest IH]; [reflexivity |].
  pose proof (appending_emits _ (body_appending x)) as Hx.
  pose proof (appending_emits _ (appending_forOf rest body body_appending)) as Hr.
  unfold outcome at 1, run. cbn [forOf existsb].
  destruct (outcome (body x)) as [[] | e] eqn:E; cbn [throws orb].
  - rewrite (emits_bind_normal _ _ _ _ _ _ Hx Hr newQueryBuilder).
    cbn. exact IH.
  - now rewrite (emits_bind_throw _ _ _ _ Hx newQueryBuilder).
Qed.

Lemma visited_no_throw (xs : list A) :
  existsb (fun x => throws (outcome (body x))) xs = false ->
  visited body xs = xs.
Proof.
  induction xs as [| x rest IH]; [reflexivity |].
  cbn. intros H. apply orb_false_iff in H as [Hx Hr].
  rewrite Hx. now rewrite IH.
Qed.

End ForOf.

(** A loop whose body computes a string from the element and pushes it. *)
Section ForOfStrings.

Context {A : Type} (f : A -> completion string) (body : A -> M unit).
Hypothesis body_normal :
  forall x s, f x = Normal s -> emits (body x) (Normal tt) [s].
Hypothesis body_throw :
  forall x e, f x = Throw e -> emits (body x) (Throw e) [].

Lemma emits_forOf_strings (xs : list A) (strs : list string) :
  mapC f xs = Normal strs -> emits (forOf xs body) (Normal tt) strs.
Proof.
  revert strs. induction xs as [| x rest IH]; intros strs H; cbn [mapC] in H.
  - inversion H; subst. apply (emits_ret tt).
  - destruct (f x) as [s | e] eqn:Ex; [| discriminate].
    destruct (mapC f rest) as [ss | e] eqn:Er; [| discriminate].
    inversion H; subst. cbn [forOf].
    change (s :: ss) with ([s] ++ ss).
    eapply emits_bind_normal; [now apply body_normal | now apply IH].
Qed.

Lemma emits_forOf_strings_throw (good rest : list A) (bad : A)
    (strs : list string) (e : JSError) :
  mapC f good = Normal strs -> f bad = Throw e ->
  emits (forOf (good ++ bad :: rest) body) (Throw e) strs.
Proof.
  revert strs. induction good as [| x good' IH]; intros strs H Hbad;
    cbn [mapC] in H.
  - inversion H; subst. cbn [app forOf]. apply emits_bind_throw.
    now apply body_throw.
  - destruct (f x) as [s | e'] eqn:Ex; [| discriminate].
    destruct (mapC f good') as [ss | e'] eqn:Er; [| discriminate].
    inversion H; subst. cbn [app forOf].
    change (s :: ss) with ([s] ++ ss).
    eapply emits_bind_normal; [now apply body_normal | now apply IH].
Qed.

End ForOfStrings.

Lemma throws_mapC {A B : Type} (f : A -> completion B) (l : list A) :
  throws (mapC f l) = existsb (fun x => throws (f x)) l.
Proof.
  induction l as [| x rest IH]; [reflexivity |].
  cbn [mapC existsb]. destruct (f x) as [y | e]; cbn [throws orb];
    [| reflexivity].
  rewrite <- IH. now destruct (mapC f rest).
Qed.

Lemma additionalFragments_entries (arg : JSObject) :
  additionalFragments arg
  = flat_map entryFragments
      (visited QB.parseAdditionalArg (Object_entries arg)).
Proof.
  unfold additionalFragments, QB.parseAdditionalArgs.
  apply emitted_forOf, appending_parseAdditionalArg.
Qed.

(** ** The order of [Object.entries] *)

Lemma insertByIndex_perm i e l :
  Permutation (insertByIndex i e l) ((i, e) :: l).
Proof.
  induction l as [| [j e'] rest IH]; simpl.
  - apply Permutation_refl.
  - destruct (i <=? j)%N.
    + apply Permutation_refl.
    + eapply perm_trans; [apply perm_skip, IH | apply perm_swap].
Qed.

Lemma indexEntries_perm (o : JSObject) :
  Permutation (map snd (indexEntries o))
              (filter (fun e => isArrayIndex (fst e)) o).
Proof.
  induction o as [| [k v] rest IH]; simpl.
  - apply perm_nil.
  - unfold isArrayIndex at 1. simpl. destruct (arrayIndex k) as [i |].
    + eapply perm_trans.
      * apply Permutation_map, insertByIndex_perm.
      * simpl. now apply perm_skip.
    + exact IH.
Qed.

Lemma filter_split_perm {A : Type} (f : A -> bool) (l : list A) :
  Permutation (filter f l ++ filter (fun x => negb (f x)) l) l.
Proof.
  induction l as [| x rest IH]; simpl.
  - apply perm_nil.
  - destruct (f x); simpl.
    + now apply perm_skip.
    + apply Permutation_sym, Permutation_cons_app, Permutation_sym, IH.
Qed.

(** [Object.entries] lists every property once. *)
Lemma Object_entries_perm (o : JSObject) : Permutation (Object_entries o) o.
Proof.
  unfold Object_entries.
  eapply perm_trans; [| apply (filter_split_perm (fun e => isArrayIndex (fst e)))].
  apply Permutation_app_tail, indexEntries_perm.
Qed.

Lemma insertByIndex_sorted i e l :
  Sorted N.le (map fst l) -> Sorted N.le (map fst (insertByIndex i e l)).
Proof.
  induction l as [| [j e'] rest IH]; simpl; intros Hs.
  - repeat constructor.
  - destruct (i <=? j)%N eqn:E; simpl.
    + constructor; [exact Hs |]. constructor. now apply N.leb_le.
    + apply N.leb_gt in E. inversion Hs as [| ? ? Hrest Hhd]; subst.
      constructor; [now apply IH |].
      destruct rest as [| [j' e''] rest']; simpl.
      * constructor. lia.
      * destruct (i <=? j')%N; simpl; constructor; try lia.
        now inversion Hhd.
Qed.

(** The array-index keys come by ascending tag. *)
Lemma indexEntries_sorted (o : JSObject) :
  Sorted N.le (map fst (indexEntries o)).
Proof.
  induction o as [| [k v] rest IH]; simpl.
  - constructor.
  - destruct (arrayIndex k); [now apply insertByIndex_sorted | exact IH].
Qed.

(** The tag of an entry is the index its key denotes. *)
Lemma indexEntries_tags (o : JSObject) :
  Forall (fun ie => arrayIndex (fst (snd ie)) = Some (fst ie)) (indexEntries o).
Proof.
  induction o as [| [k v] rest IH]; cbn [indexEntries]; [constructor |].
  destruct (arrayIndex k) as [i |] eqn:E; [| exact IH].
  eapply Permutation_Forall;
    [apply Permutation_sym, insertByIndex_perm |].
  constructor; [exact E | exact IH].
Qed.

(** So the entries with an array-index key come by ascending index. *)
Lemma indexEntries_ascending (o : JSObject) :
  Sorted (fun e e' => (keyIndex e <= keyIndex e')%N) (map snd (indexEntries o)).
Proof.
  pose proof (indexEntries_sorted o) as Hs.
  pose proof (indexEntries_tags o) as Ht.
  induction (indexEntries o) as [| [i e] rest IH]; cbn [map snd]; [constructor |].
  cbn [map fst] in Hs. inversion Hs as [| ? ? Hrest Hhd]; subst.
  inversion Ht as [| ? ? Hi Htr]; subst. cbn [fst snd] in Hi.
  constructor; [now apply IH |].
  destruct rest as [| [j e'] rest']; cbn [map snd]; constructor.
  inversion Hhd as [| ? ? Hij]; subst.
  inversion Htr as [| ? ? Hj _]; subst. cbn [fst snd] in Hj.
  unfold keyIndex. now rewrite Hi, Hj.
Qed.

Lemma indexEntries_named (o : JSObject) :
  forallb isNamedKey o = true -> indexEntries o = [].
Proof.
  induction o as [| [k v] rest IH]; simpl; [reflexivity |].
  unfold isNamedKey at 1, isArrayIndex. simpl.
  destruct (arrayIndex k); simpl; [discriminate | exact IH].
Qed.

(** Without array-index keys, [Object.entries] is the creation order. *)
Lemma Object_entries_named_keys (o : JSObject) :
  forallb isNamedKey o = true -> Object_entries o = o.
Proof.
  intros H. unfold Object_entries. rewrite (indexEntries_named o H). simpl.
  apply forallb_filter_id. exact H.
Qed.

Lemma Object_entries_one (k : string) (v : JSValue) :
  Object_entries [(k, v)] = [(k, v)].
Proof.
  unfold Object_entries, isArrayIndex. cbn.
  destruct (arrayIndex k); reflexivity.
Qed.

Lemma existsb_pointwise {A : Type} (f g : A -> bool) (l : list A) :
  (forall x, f x = g x) -> existsb f l = existsb g l.
Proof.
  intros H. induction l as [| x rest IH]; simpl; [reflexivity |].
  now rewrite H, IH.
Qed.

Lemma existsb_perm {A : Type} (f : A -> bool) (l l' : list A) :
  Permutation l l' -> existsb f l = existsb f l'.
Proof.
  induction 1; simpl; try congruence.
  now rewrite !orb_assoc, (orb_comm (f y)).
Qed.

(** ** String forms *)

Lemma JSValue_elems_ind (P : JSValue -> Prop) :
  P VUndefined -> P VNull -> (forall b, P (VBool b)) ->
  (forall n, P (VNumber n)) -> (forall s, P (VStr s)) ->
  (forall elems, Forall P elems -> P (VArr elems)) ->
  (forall props, P (VObj props)) ->
  forall v, P v.
Proof.
  intros Hu Hn Hb Hnum Hs Harr Hobj. fix IH 1. intros v.
  destruct v as [| | b | n | s | elems | props];
    [exact Hu | exact Hn | apply Hb | apply Hnum | apply Hs | | apply Hobj].
  apply Harr. induction elems as [| e rest IHl]; constructor;
    [apply IH | exact IHl].
Qed.

Lemma mapC_cons {A B : Type} (f : A -> completion B) (x : A) (rest : list A) :
  mapC f (x :: rest)
  = match f x with
    | Normal y =>
        match mapC f rest with
        | Normal ys => Normal (y :: ys)
        | Throw e => Throw e
        end
    | Throw e => Throw e
    end.
Proof. reflexivity. Qed.

(** [stringable], the test on [ToString], is [printable], the test on the
    value. *)
Lemma stringable_printable (v : JSValue) : stringable v = printable v.
Proof.
  induction v as [| | b | n | s | elems IH | props] using JSValue_elems_ind;
    try reflexivity.
  - now destruct b.
  - unfold stringable. cbn [ToString printable].
    transitivity
      (negb (throws (mapC (fun e => if isNullish e then Normal ""
                                    else ToString e) elems))).
    { now destruct (mapC _ elems). }
    rewrite throws_mapC.
    induction IH as [| e rest He _ IHl]; [reflexivity |].
    cbn [existsb forallb]. rewrite negb_orb, IHl. f_equal.
    destruct (isNullish e); [reflexivity | exact He].
  - unfold stringable. cbn [ToString printable].
    now destruct (hasOwnProperty props "toString").
Qed.

(** ** When the second pass throws *)

Lemma outcome_bind_liftC {A B : Type} (c : completion A) (f : A -> M B) :
  outcome (x <- liftC c ;; f x)
  = match c with Normal a => outcome (f a) | Throw e => Throw e end.
Proof. unfold outcome, run. cbn. now destruct c. Qed.

Lemma outcome_stringify (c : completion string) (wrap : string -> string) :
  outcome (s <- liftC c ;; joinedArgs_push (wrap s))
  = match c with Normal _ => Normal tt | Throw e => Throw e end.
Proof. apply (emits_outcome _ _ _ (emits_stringify c wrap)). Qed.

Lemma emits_liftC_normal {A B : Type} (a : A) (f : A -> M B) c fs :
  emits (f a) c fs -> emits (x <- liftC (Normal a) ;; f x) c fs.
Proof. intros H q. cbn. apply H. Qed.

Lemma emits_liftC_throw {A B : Type} (e : JSError) (f : A -> M B) :
  emits (x <- liftC (Throw e) ;; f x) (Throw e) [].
Proof. intros [h j]. cbn. now rewrite app_nil_r. Qed.

(** [handleAttributeArgument] pushes the attribute string of the element,
    and throws when there is none. *)
Lemma emits_handleAttributeArgument (el : JSValue) :
  emits (QB.handleAttributeArgument el)
        (match attributeString el with
         | Normal _ => Normal tt
         | Throw e => Throw e
         end)
        (match attributeString el with Normal s => [s] | Throw _ => [] end).
Proof.
  unfold QB.handleAttributeArgument, attributeString.
  destruct (QB.Get el "key") as [k | e]; cbn [bind completion_Monad];
    [apply emits_liftC_normal | apply emits_liftC_throw].
  destruct (ToString k) as [ks | e];
    [apply emits_liftC_normal | apply emits_liftC_throw].
  destruct (QB.Get el "value") as [v | e];
    [apply emits_liftC_normal | apply emits_liftC_throw].
  destruct (ToString v) as [vs | e];
    [apply emits_liftC_normal, emits_push | apply emits_liftC_throw].
Qed.

Lemma throws_attributeString (el : JSValue) :
  throws (attributeString el) = attributeThrows el.
Proof.
  destruct el; try reflexivity.
  unfold attributeString, attributeThrows, stringable. cbn.
  destruct (ToString (getProp props "key")); cbn; [| reflexivity].
  now destruct (ToString (getProp props "value")).
Qed.

Lemma throws_handleAttributeArgument (el : JSValue) :
  throws (outcome (QB.handleAttributeArgument el)) = attributeThrows el.
Proof.
  rewrite (emits_outcome _ _ _ (emits_handleAttributeArgument el)).
  rewrite <- throws_attributeString. now destruct (attributeString el).
Qed.

Lemma isPair_not_nullish (v : JSValue) : isPair v = true -> isNullish v = false.
Proof. now destruct v. Qed.

Lemma isAttributeArg_pair (pair : JSObject) :
  QB.isAttributeArg (VObj pair) = Normal (hasKeyAndValue pair).
Proof.
  unfold QB.isAttributeArg, hasKeyAndValue. cbn.
  now destruct (QB.isDefined (getProp pair "key")).
Qed.

Lemma isAttributeArg_cases (v : JSValue) :
  QB.isAttributeArg v
  = if isNullish v then Throw TypeError else Normal (isPair v).
Proof.
  destruct v; try reflexivity.
  unfold isPair. now rewrite isAttributeArg_pair.
Qed.

Lemma throws_handleArrayArg (key : string) (values : list JSValue) :
  throws (outcome (QB.handleArrayArg key values)) = faultyValue (VArr values).
Proof.
  destruct values as [| first rest]; [reflexivity |].
  unfold QB.handleArrayArg. rewrite outcome_bind_liftC, isAttributeArg_cases.
  cbn [faultyValue].
  destruct (isNullish first); [reflexivity |].
  destruct (isPair first).
  - rewrite throws_forOf by apply appending_handleAttributeArgument.
    apply existsb_pointwise. intros el. apply throws_handleAttributeArgument.
  - rewrite throws_forOf
      by (intros el;
          apply (appending_stringify _ (fun s => key ++ "=" ++ s)%string)).
    apply existsb_pointwise. intros el.
    rewrite (outcome_stringify (ToString el) (fun s => key ++ "=" ++ s)%string).
    unfold stringable. now destruct (ToString el).
Qed.

Lemma entryThrows_faulty (entry : string * JSValue) :
  entryThrows entry = faultyEntry entry.
Proof.
  destruct entry as [k v]. unfold entryThrows, faultyEntry. cbn [fst snd].
  unfold QB.parseAdditionalArg.
  destruct (QB.isDefaultKey k); [reflexivity |]. cbn [orb negb andb].
  destruct v; try reflexivity.
  - now destruct b.
  - apply throws_handleArrayArg.
  - cbn [QB.isDefined negb]. rewrite outcome_bind_liftC, isAttributeArg_pair.
    cbn [faultyValue]. destruct (hasKeyAndValue props).
    + apply throws_handleAttributeArgument.
    + rewrite (outcome_stringify (ToString (VObj props))
                 (fun s => k ++ "=" ++ s)%string).
      unfold stringable. now destruct (ToString (VObj props)).
Qed.

Lemma throws_parseAdditionalArgs (arg : JSObject) :
  throws (outcome (QB.parseAdditionalArgs arg)) = existsb faultyEntry arg.
Proof.
  unfold QB.parseAdditionalArgs.
  rewrite throws_forOf by apply appending_parseAdditionalArg.
  rewrite (existsb_perm _ _ _ (Object_entries_perm arg)).
  apply existsb_pointwise. intros e. apply entryThrows_faulty.
Qed.

Lemma outcome_addArgument (arg : JSObject) :
  outcome (QB.addArgument arg) = outcome (QB.parseArgument arg).
Proof. unfold outcome at 1, run. now rewrite addArgument_eq. Qed.

Lemma throws_parseArgument (arg : JSObject) :
  throws (outcome (QB.parseArgument arg)) = faultyArgument arg.
Proof.
  rewrite outcome_parseArgument. unfold faultyArgument.
  destruct (defaultsComplete arg); cbn [negb orb throws]; [| reflexivity].
  apply throws_parseAdditionalArgs.
Qed.

Lemma throws_addArgument (arg : JSObject) :
  throws (outcome (QB.addArgument arg)) = faultyArgument arg.
Proof. rewrite outcome_addArgument. apply throws_parseArgument. Qed.

(** * The properties *)

(** C8.  From every state of the builder, [flush] returns normally and
    leaves both sequences empty: on the state it leaves, [build] returns
    the empty string and [getArguments] the empty sequence. *)
Theorem C8_flush_clears (q : QueryBuilder) :
  fst (QB.flush q) = Normal tt
  /\ fst (QB.build (snd (QB.flush q))) = Normal ""
  /\ fst (QB.getArguments (snd (QB.flush q))) = Normal []
  /\ arguments (snd (QB.flush q)) = []
  /\ joinedArgs (snd (QB.flush q)) = [].
Proof. repeat split. Qed.

(** C9.  [constructQuery] returns the empty string on [undefined] and on
    [null], returns every string unchanged (the empty one included), and
    returns for a builder what its [build] returns. *)
Theorem C9_constructQuery_cases :
  constructQuery QUndefined = Normal ""
  /\ constructQuery QNull = Normal ""
  /\ (forall s : string, constructQuery (QString s) = Normal s)
  /\ (forall q : QueryBuilder, constructQuery (QBuilder q) = fst (QB.build q)).
Proof.
  repeat split.
  intros s. unfold constructQuery, isFalsy.
  destruct (s =? "") eqn:E; [| reflexivity].
  apply String.eqb_eq in E. now subst.
Qed.

(** C4, as the specification states it, fails: [addArgument] throws a
    [TypeError] on an argument whose custom key [id] holds [null], because
    [isAttributeArg] reads [.key] of the value. *)
Lemma C4_counterexample_null_value :
  fst (QB.addArgument [("id", VNull)] newQueryBuilder) = Throw TypeError
  /\ ~ (forall (arg : JSObject) (q : QueryBuilder),
          throws (fst (QB.addArgument arg q)) = false).
Proof.
  split; [reflexivity |].
  intros H. specialize (H [("id", VNull)] newQueryBuilder). discriminate.
Qed.

(** C4, amended.  On an argument object whose values are those of
    [JSValue] (plain data: [undefined], [null], booleans, numbers,
    strings, arrays and objects of such values), [addArgument] throws
    exactly on the faulty arguments, and what it throws is a [TypeError];
    on every other argument it returns normally.  An argument is faulty
    when a default key holds a truthy value without string form, or when
    a key outside [DEFAULT_KEYS] holds: [null]; a sequence starting with
    [null] or [undefined]; a sequence starting with an attribute pair and
    holding an element that is [null], [undefined] or an object whose
    [key] or [value] has no string form; a sequence starting otherwise
    and holding an element without string form; an attribute pair whose
    [key] or [value] has no string form; another object without string
    form.  A value has no string form when it is an object with an own
    property [toString], or a sequence with an element, other than [null]
    and [undefined], that has none.  In both cases the argument has been
    added to the history, and the fragments pushed up to that point are
    kept. *)
Theorem C4_addArgument_throws_iff_faulty (arg : JSObject) (q : QueryBuilder) :
  fst (QB.addArgument arg q)
  = (if faultyArgument arg then Throw TypeError else Normal tt)
  /\ arguments (snd (QB.addArgument arg q)) = arguments q ++ [arg]
  /\ joinedArgs (snd (QB.addArgument arg q)) = joinedArgs q ++ fragmentsOf arg
  /\ faultyArgument arg
     = existsb (fun name =>
                  ToBoolean (getProp arg name)
                  && negb (printable (getProp arg name)))
         ["skip"; "top"; "inlinecount"; "expand"; "orderBy"]
       || existsb faultyEntry arg
  /\ (forall v : JSValue, stringable v = printable v).
Proof.
  rewrite addArgument_eq. cbn [fst snd arguments joinedArgs].
  split; [| split; [reflexivity | split; [reflexivity | split]]].
  - rewrite <- throws_parseArgument.
    destruct (outcome (QB.parseArgument arg)) as [[] | []]; reflexivity.
  - unfold faultyArgument, defaultsComplete, defaultThrows.
    cbn [defaultSteps forallb existsb snd].
    rewrite <- !stringable_printable. unfold stringable.
    rewrite !negb_involutive.
    repeat match goal with
           | |- context [ToBoolean ?v && throws ?t] =>
               destruct (ToBoolean v && throws t)
           end; reflexivity.
  - apply stringable_printable.
Qed.

(** C5.  The key [inline] is a member of [DEFAULT_KEYS]: the second pass
    skips it, the first pass does not read it, and an argument that holds
    only this key appends no fragment whatever its value. *)
Theorem C5_inline_key_emits_nothing (v : JSValue) (q : QueryBuilder) :
  QB.isDefaultKey "inline" = true
  /\ fst (QB.addArgument [("inline", v)] q) = Normal tt
  /\ joinedArgs (snd (QB.addArgument [("inline", v)] q)) = joinedArgs q
  /\ built (QB.addArgument [("inline", VStr "x")]) = Normal "".
Proof.
  rewrite addArgument_eq. cbn [fst snd joinedArgs].
  repeat split. apply app_nil_r.
Qed.

(** ** Entries at custom keys *)

Lemma getProp_custom_cons k v rest name :
  QB.isDefaultKey k = false -> In name defaultNames ->
  getProp ((k, v) :: rest) name = getProp rest name.
Proof.
  intros Hk Hn. cbn [getProp].
  destruct (k =? name) eqn:E; [| reflexivity].
  apply String.eqb_eq in E. subst k.
  cbn in Hn. now repeat (destruct Hn as [<- | Hn]; [discriminate |]).
Qed.

(** An argument with one entry, at a key outside [DEFAULT_KEYS]: the call
    does what the loop body does on the entry. *)
Lemma addArgument_one k v c fs q :
  QB.isDefaultKey k = false ->
  emits (QB.parseAdditionalArg (k, v)) c fs ->
  QB.addArgument [(k, v)] q
  = (c, {| arguments := arguments q ++ [[(k, v)]];
           joinedArgs := joinedArgs q ++ fs |}).
Proof.
  intros Hk He.
  assert (Hget : forall name, In name defaultNames ->
                              getProp [(k, v)] name = VUndefined).
  { intros name Hn. now rewrite (getProp_custom_cons k v [] name Hk Hn). }
  assert (Hc : defaultsComplete [(k, v)] = true).
  { unfold defaultsComplete, defaultSteps. cbn [forallb snd].
    rewrite !Hget by (cbn; tauto). reflexivity. }
  rewrite (addArgument_complete _ q Hc).
  rewrite !Hget by (cbn; tauto). cbn [defaultFragment ToBoolean app].
  assert (Hone : emits (QB.parseAdditionalArgs [(k, v)]) c fs).
  { unfold QB.parseAdditionalArgs. rewrite Object_entries_one.
    cbn [forOf]. destruct c as [[] | e].
    - rewrite <- (app_nil_r fs).
      eapply emits_bind_normal; [exact He | apply (emits_ret tt)].
    - now apply emits_bind_throw. }
  unfold additionalFragments.
  now rewrite (emits_outcome _ _ _ Hone), (emits_emitted _ _ _ Hone).
Qed.

Lemma emits_attribute_normal (el : JSValue) (s : string) :
  attributeString el = Normal s ->
  emits (QB.handleAttributeArgument el) (Normal tt) [s].
Proof.
  intros H. pose proof (emits_handleAttributeArgument el) as He.
  now rewrite H in He.
Qed.

Lemma emits_attribute_throw (el : JSValue) (e : JSError) :
  attributeString el = Throw e ->
  emits (QB.handleAttributeArgument el) (Throw e) [].
Proof.
  intros H. pose proof (emits_handleAttributeArgument el) as He.
  now rewrite H in He.
Qed.

Lemma pairFragment_strings (pair : JSObject) (ks vs : string) :
  ToString (getProp pair "key") = Normal ks ->
  ToString (getProp pair "value") = Normal vs ->
  pairFragment pair = Normal (ks ++ "=" ++ vs)%string.
Proof.
  intros Hk Hv. unfold pairFragment, attributeString. cbn.
  now rewrite Hk, Hv.
Qed.

Lemma emits_pair (k : string) (pair : JSObject) (s : string) :
  QB.isDefaultKey k = false -> hasKeyAndValue pair = true ->
  pairFragment pair = Normal s ->
  emits (QB.parseAdditionalArg (k, VObj pair)) (Normal tt) [s].
Proof.
  intros Hk Hp Hs q. unfold QB.parseAdditionalArg. rewrite Hk.
  cbn [QB.isDefined negb orb]. cbn [bind M_Monad liftC].
  rewrite isAttributeArg_pair, Hp.
  now apply emits_attribute_normal.
Qed.

Lemma mapC_map {A B C : Type} (g : A -> B) (f : B -> completion C)
    (l : list A) :
  mapC f (map g l) = mapC (fun x => f (g x)) l.
Proof.
  induction l as [| x rest IH]; [reflexivity |].
  cbn [map]. rewrite !mapC_cons. now rewrite IH.
Qed.

Lemma emits_pairs (k : string) (pairs : list JSObject) (frags : list string) :
  QB.isDefaultKey k = false -> forallb hasKeyAndValue pairs = true ->
  mapC pairFragment pairs = Normal frags ->
  emits (QB.parseAdditionalArg (k, VArr (map VObj pairs))) (Normal tt) frags.
Proof.
  intros Hk Hp Hf. unfold QB.parseAdditionalArg. rewrite Hk.
  cbn [QB.isDefined negb orb].
  destruct pairs as [| p rest].
  { cbn in Hf. inversion Hf; subst. apply (emits_ret tt). }
  cbn [forallb] in Hp. apply andb_true_iff in Hp as [Hp _].
  intros q. cbn [map QB.handleArrayArg bind M_Monad liftC].
  rewrite isAttributeArg_pair, Hp.
  apply (emits_forOf_strings attributeString QB.handleAttributeArgument
           emits_attribute_normal (map VObj (p :: rest)) frags).
  now rewrite mapC_map.
Qed.

Lemma emits_keyed_normal (k : string) (el : JSValue) (s : string) :
  match ToString el with
  | Normal s' => Normal (k ++ "=" ++ s')%string
  | Throw e => Throw e
  end = Normal s ->
  emits (s' <- liftC (ToString el) ;; joinedArgs_push (k ++ "=" ++ s'))
        (Normal tt) [s].
Proof.
  intros H. pose proof (emits_stringify (ToString el)
                          (fun s' => k ++ "=" ++ s')%string) as He.
  destruct (ToString el); inversion H; subst. exact He.
Qed.

Lemma mapC_wrap {A : Type} (f : A -> completion string)
    (wrap : string -> string) (l : list A) (strs : list string) :
  mapC f l = Normal strs ->
  mapC (fun x => match f x with
                 | Normal s => Normal (wrap s)
                 | Throw e => Throw e
                 end) l
  = Normal (map wrap strs).
Proof.
  revert strs. induction l as [| x rest IH]; intros strs H.
  - inversion H; subst. reflexivity.
  - rewrite mapC_cons in H |- *.
    destruct (f x) as [s | e]; [| discriminate].
    destruct (mapC f rest) as [ss | e]; [| discriminate].
    inversion H; subst. now rewrite (IH ss eq_refl).
Qed.

Lemma emits_elements (k : string) (values : list JSValue)
    (strs : list string) :
  QB.isDefaultKey k = false -> firstIsNoPair values ->
  mapC ToString values = Normal strs ->
  emits (QB.parseAdditionalArg (k, VArr values)) (Normal tt)
        (map (fun s => k ++ "=" ++ s)%string strs).
Proof.
  intros Hk Hf Hs. unfold QB.parseAdditionalArg. rewrite Hk.
  cbn [QB.isDefined negb orb].
  destruct values as [| first rest].
  { inversion Hs; subst. apply (emits_ret tt). }
  intros q. cbn [QB.handleArrayArg bind M_Monad liftC].
  unfold firstIsNoPair in Hf. rewrite Hf.
  apply (emits_forOf_strings
           (fun el => match ToString el with
                      | Normal s' => Normal (k ++ "=" ++ s')%string
                      | Throw e => Throw e
                      end)
           _ (emits_keyed_normal k)).
  now apply (mapC_wrap ToString (fun s => k ++ "=" ++ s)%string).
Qed.

Lemma emits_pair_throw (k : string) (pair : JSObject) :
  QB.isDefaultKey k = false -> hasKeyAndValue pair = true ->
  pairFragment pair = Throw TypeError ->
  emits (QB.parseAdditionalArg (k, VObj pair)) (Throw TypeError) [].
Proof.
  intros Hk Hp Hs q. unfold QB.parseAdditionalArg. rewrite Hk.
  cbn [QB.isDefined negb orb]. cbn [bind M_Monad liftC].
  rewrite isAttributeArg_pair, Hp.
  now apply emits_attribute_throw.
Qed.

Lemma emits_keyed_throw (k : string) (el : JSValue) (e : JSError) :
  match ToString el with
  | Normal s' => Normal (k ++ "=" ++ s')%string
  | Throw e' => Throw e'
  end = Throw e ->
  emits (s' <- liftC (ToString el) ;; joinedArgs_push (k ++ "=" ++ s'))
        (Throw e) [].
Proof.
  intros H. pose proof (emits_stringify (ToString el)
                          (fun s' => k ++ "=" ++ s')%string) as He.
  destruct (ToString el); inversion H; subst. exact He.
Qed.

Lemma emits_elements_nullish (k : string) (first : JSValue)
    (rest : list JSValue) :
  QB.isDefaultKey k = false -> isNullish first = true ->
  emits (QB.parseAdditionalArg (k, VArr (first :: rest))) (Throw TypeError) [].
Proof.
  intros Hk Hn [h j]. unfold QB.parseAdditionalArg. rewrite Hk.
  destruct first; try discriminate; cbn; now rewrite app_nil_r.
Qed.

Lemma emits_elements_throw (k : string) (good rest : list JSValue)
    (bad : JSValue) (strs : list string) :
  QB.isDefaultKey k = false -> firstIsNoPair (good ++ bad :: rest) ->
  mapC ToString good = Normal strs -> ToString bad = Throw TypeError ->
  emits (QB.parseAdditionalArg (k, VArr (good ++ bad :: rest)))
        (Throw TypeError) (map (fun s => k ++ "=" ++ s)%string strs).
Proof.
  intros Hk Hf Hs Hb. unfold QB.parseAdditionalArg. rewrite Hk.
  cbn [QB.isDefined negb orb].
  assert (Hloop : emits (forOf (good ++ bad :: rest)
                           (fun el => s <- liftC (ToString el) ;;
                                      joinedArgs_push (k ++ "=" ++ s)))
                        (Throw TypeError)
                        (map (fun s => k ++ "=" ++ s)%string strs)).
  { apply (emits_forOf_strings_throw
             (fun el => match ToString el with
                        | Normal s' => Normal (k ++ "=" ++ s')%string
                        | Throw e => Throw e
                        end)
             _ (emits_keyed_normal k) (emits_keyed_throw k)).
    - now apply (mapC_wrap ToString (fun s => k ++ "=" ++ s)%string).
    - now rewrite Hb. }
  destruct (good ++ bad :: rest) as [| first tail] eqn:E.
  { now destruct good. }
  intros q. cbn [QB.handleArrayArg bind M_Monad liftC].
  unfold firstIsNoPair in Hf. rewrite Hf. apply Hloop.
Qed.

(** C2, as the specification states it, fails: a record with both fields
    whose [key] has no string form makes the call throw a [TypeError],
    and no fragment is pushed for it. *)
Lemma C2_counterexample_key_without_string :
  hasKeyAndValue [("key", shadowed); ("value", VStr "v")] = true
  /\ QB.isDefaultKey "attributes" = false
  /\ QB.addArgument
       [("attributes", VObj [("key", shadowed); ("value", VStr "v")])]
       newQueryBuilder
     = (Throw TypeError,
        {| arguments :=
             [[("attributes", VObj [("key", shadowed); ("value", VStr "v")])]];
           joinedArgs := [] |}).
Proof. repeat split. Qed.

(** C2, amended.  At a key [k] that [isDefaultKey] rejects, an attribute
    pair (an object whose [key] and [value] are both defined) whose [key]
    and [value] have the string forms [ks] and [vs] appends the single
    fragment "ks=vs", in which [k] plays no part, and a sequence of
    attribute pairs with string forms appends that fragment for each
    element, in the order of the sequence.  This holds for the loop body
    on the entry from any state, hence for [addArgument], which returns
    normally, on the argument made of this entry.  The two examples of
    the specification come out as stated.  On an attribute pair whose
    [key] or [value] has no string form the call throws a [TypeError] and
    pushes nothing. *)
Theorem C2_attribute_pairs_flattened
    (k : string) (pair : JSObject) (ks vs : string)
    (pairs : list JSObject) (frags : list string) (q : QueryBuilder) :
  QB.isDefaultKey k = false ->
  hasKeyAndValue pair = true ->
  ToString (getProp pair "key") = Normal ks ->
  ToString (getProp pair "value") = Normal vs ->
  forallb hasKeyAndValue pairs = true ->
  mapC pairFragment pairs = Normal frags ->
  emits (QB.parseAdditionalArg (k, VObj pair)) (Normal tt)
        [(ks ++ "=" ++ vs)%string]
  /\ QB.addArgument [(k, VObj pair)] q
     = (Normal tt,
        {| arguments := arguments q ++ [[(k, VObj pair)]];
           joinedArgs := joinedArgs q ++ [(ks ++ "=" ++ vs)%string] |})
  /\ emits (QB.parseAdditionalArg (k, VArr (map VObj pairs))) (Normal tt)
           frags
  /\ QB.addArgument [(k, VArr (map VObj pairs))] q
     = (Normal tt,
        {| arguments := arguments q ++ [[(k, VArr (map VObj pairs))]];
           joinedArgs := joinedArgs q ++ frags |})
  /\ pairFragment pair = Normal (ks ++ "=" ++ vs)%string
  /\ built (QB.addArgument
              [("attributes",
                VObj [("key", VStr "random"); ("value", VStr "value")])])
     = Normal "?random=value"
  /\ built (QB.addArgument
              [("attributes",
                VArr [VObj [("key", VStr "a"); ("value", VStr "1")];
                      VObj [("key", VStr "b"); ("value", VStr "2")]])])
     = Normal "?a=1&b=2"
  /\ (forall bad : JSObject,
        hasKeyAndValue bad = true ->
        pairFragment bad = Throw TypeError ->
        QB.addArgument [(k, VObj bad)] q
        = (Throw TypeError,
           {| arguments := arguments q ++ [[(k, VObj bad)]];
              joinedArgs := joinedArgs q |})).
Proof.
  intros Hk Hp Hks Hvs Hps Hfr.
  pose proof (pairFragment_strings pair ks vs Hks Hvs) as Hpf.
  pose proof (emits_pair k pair _ Hk Hp Hpf) as H1.
  pose proof (emits_pairs k pairs frags Hk Hps Hfr) as H2.
  split; [exact H1 |]. split; [now apply addArgument_one |].
  split; [exact H2 |]. split; [now apply addArgument_one |].
  split; [exact Hpf |]. do 2 (split; [reflexivity |]).
  intros bad Hb Hthrow.
  rewrite (addArgument_one k (VObj bad) (Throw TypeError) [] q Hk).
  - now rewrite app_nil_r.
  - now apply emits_pair_throw.
Qed.

Lemma C2_attribute_pairs_flattened_witness :
  QB.isDefaultKey "attributes" = false
  /\ hasKeyAndValue [("key", VStr "random"); ("value", VStr "value")] = true
  /\ ToString (getProp [("key", VStr "random"); ("value", VStr "value")] "key")
     = Normal "random"
  /\ ToString (getProp [("key", VStr "random"); ("value", VStr "value")] "value")
     = Normal "value"
  /\ forallb hasKeyAndValue
       [[("key", VStr "a"); ("value", VNum 1)];
        [("value", VNull); ("key", VStr "b")]] = true
  /\ mapC pairFragment
       [[("key", VStr "a"); ("value", VNum 1)];
        [("value", VNull); ("key", VStr "b")]]
     = Normal ["a=1"; "b=null"]
  /\ QB.addArgument
       [("attributes",
         VArr [VObj [("key", VStr "a"); ("value", VNum 1)];
               VObj [("value", VNull); ("key", VStr "b")]])]
       newQueryBuilder
     = (Normal tt,
        {| arguments :=
             [[("attributes",
                VArr [VObj [("key", VStr "a"); ("value", VNum 1)];
                      VObj [("value", VNull); ("key", VStr "b")]])]];
           joinedArgs := ["a=1"; "b=null"] |}).
Proof.
  do 6 (split; [reflexivity |]).
  pose proof (C2_attribute_pairs_flattened "attributes"
                [("key", VStr "random"); ("value", VStr "value")]
                "random" "value"
                [[("key", VStr "a"); ("value", VNum 1)];
                 [("value", VNull); ("key", VStr "b")]]
                ["a=1"; "b=null"]
                newQueryBuilder eq_refl eq_refl eq_refl eq_refl eq_refl eq_refl)
    as [_ [_ [_ [H _]]]].
  exact (eq_trans H eq_refl).
Defined.

(** C3, as the specification states it, fails: [null] is not an attribute
    pair, and on a sequence that starts with it the call throws a
    [TypeError] and pushes no fragment. *)
Lemma C3_counterexample_null_first :
  isPair VNull = false
  /\ QB.isDefaultKey "priority" = false
  /\ QB.addArgument [("priority", VArr [VNull; VStr "LOW"])] newQueryBuilder
     = (Throw TypeError,
        {| arguments := [[("priority", VArr [VNull; VStr "LOW"])]];
           joinedArgs := [] |}).
Proof. repeat split. Qed.

(** C3, amended.  At a key [k] that [isDefaultKey] rejects, a sequence
    that is empty, or on whose first element [isAttributeArg] answers
    [false] (the element is not [null], not [undefined], and not an
    object with [key] and [value] both defined), and whose elements have
    the string forms [strs], appends one fragment "<k>=<string>" per
    element in the order of the sequence, so none when it is empty;
    [addArgument] returns normally on the argument made of this entry.
    On a sequence that starts with [null] or [undefined] the call throws
    a [TypeError] and pushes nothing; at the first element without string
    form it throws a [TypeError], the fragments of the elements before it
    being pushed. *)
Theorem C3_custom_sequence_flattened
    (k : string) (values : list JSValue) (strs : list string)
    (q : QueryBuilder) :
  QB.isDefaultKey k = false ->
  firstIsNoPair values ->
  mapC ToString values = Normal strs ->
  emits (QB.parseAdditionalArg (k, VArr values)) (Normal tt)
        (map (fun s => k ++ "=" ++ s)%string strs)
  /\ QB.addArgument [(k, VArr values)] q
     = (Normal tt,
        {| arguments := arguments q ++ [[(k, VArr values)]];
           joinedArgs :=
             joinedArgs q ++ map (fun s => k ++ "=" ++ s)%string strs |})
  /\ List.length strs = List.length values
  /\ QB.addArgument [(k, VArr [])] q
     = (Normal tt,
        {| arguments := arguments q ++ [[(k, VArr [])]];
           joinedArgs := joinedArgs q |})
  /\ built (QB.addArgument [("priority", VArr [VStr "LOW"; VStr "MEDIUM"])])
     = Normal "?priority=LOW&priority=MEDIUM"
  /\ (forall (first : JSValue) (rest : list JSValue),
        isNullish first = true ->
        QB.addArgument [(k, VArr (first :: rest))] q
        = (Throw TypeError,
           {| arguments := arguments q ++ [[(k, VArr (first :: rest))]];
              joinedArgs := joinedArgs q |}))
  /\ (forall (good rest : list JSValue) (bad : JSValue) (gs : list string),
        firstIsNoPair (good ++ bad :: rest) ->
        mapC ToString good = Normal gs ->
        ToString bad = Throw TypeError ->
        QB.addArgument [(k, VArr (good ++ bad :: rest))] q
        = (Throw TypeError,
           {| arguments := arguments q ++ [[(k, VArr (good ++ bad :: rest))]];
              joinedArgs :=
                joinedArgs q ++ map (fun s => k ++ "=" ++ s)%string gs |})).
Proof.
  intros Hk Hf Hs.
  pose proof (emits_elements k values strs Hk Hf Hs) as H1.
  split; [exact H1 |]. split; [now apply addArgument_one |].
  split; [| split; [| split; [reflexivity | split]]];
    [| | intros first rest Hn
     | intros good rest bad gs Hfg Hg Hb;
       apply addArgument_one; [exact Hk |];
       now apply emits_elements_throw];
    [| | rewrite (addArgument_one k (VArr (first :: rest))
                    (Throw TypeError) [] q Hk);
         [now rewrite app_nil_r | now apply emits_elements_nullish]].
  - clear H1 Hf. revert strs Hs.
    induction values as [| v rest IH]; intros strs Hs.
    + now inversion Hs.
    + rewrite mapC_cons in Hs. destruct (ToString v); [| discriminate].
      destruct (mapC ToString rest) as [ss |]; [| discriminate].
      inversion Hs; subst. cbn [List.length]. now rewrite (IH ss eq_refl).
  - rewrite (addArgument_one k (VArr []) (Normal tt) [] q Hk).
    + now rewrite app_nil_r.
    + apply (emits_elements k [] [] Hk I eq_refl).
Qed.

Lemma C3_custom_sequence_flattened_witness :
  QB.isDefaultKey "priority" = false
  /\ firstIsNoPair [VStr "LOW"; VNull; VArr [VNum 1; VNum 2]]
  /\ mapC ToString [VStr "LOW"; VNull; VArr [VNum 1; VNum 2]]
     = Normal ["LOW"; "null"; "1,2"]
  /\ QB.addArgument
       [("priority", VArr [VStr "LOW"; VNull; VArr [VNum 1; VNum 2]])]
       newQueryBuilder
     = (Normal tt,
        {| arguments :=
             [[("priority", VArr [VStr "LOW"; VNull; VArr [VNum 1; VNum 2]])]];
           joinedArgs := ["priority=LOW"; "priority=null"; "priority=1,2"] |}).
Proof.
  do 3 (split; [reflexivity |]).
  pose proof (C3_custom_sequence_flattened "priority"
                [VStr "LOW"; VNull; VArr [VNum 1; VNum 2]]
                ["LOW"; "null"; "1,2"] newQueryBuilder
                eq_refl eq_refl eq_refl) as [_ [H _]].
  exact (eq_trans H eq_refl).
Defined.

(** ** Arguments made of default keys *)

Lemma emits_default_key (k : string) (v : JSValue) :
  QB.isDefaultKey k = true ->
  emits (QB.parseAdditionalArg (k, v)) (Normal tt) [].
Proof.
  intros Hk. unfold QB.parseAdditionalArg. rewrite Hk. apply (emits_ret tt).
Qed.

Lemma emits_forOf_silent (entries : list (string * JSValue)) :
  (forall e, In e entries -> QB.isDefaultKey (fst e) = true) ->
  emits (forOf entries QB.parseAdditionalArg) (Normal tt) [].
Proof.
  induction entries as [| [k v] rest IH]; intros H.
  - apply (emits_ret tt).
  - cbn [forOf]. change (@nil string) with (@nil string ++ []).
    eapply emits_bind_normal.
    + apply emits_default_key. apply (H (k, v)). now left.
    + apply IH. intros e He. apply H. now right.
Qed.

Lemma emits_parseAdditionalArgs_silent (arg : JSObject) :
  (forall e, In e arg -> QB.isDefaultKey (fst e) = true) ->
  emits (QB.parseAdditionalArgs arg) (Normal tt) [].
Proof.
  intros H. apply emits_forOf_silent. intros e He. apply H.
  eapply Permutation_in; [apply Object_entries_perm | exact He].
Qed.

Lemma getProp_In (o : JSObject) (k : string) (v : JSValue) :
  NoDup (map fst o) -> In (k, v) o -> getProp o k = v.
Proof.
  induction o as [| [k' v'] rest IH]; intros Hnd Hin; [easy |].
  cbn [map fst] in Hnd. inversion Hnd as [| ? ? Hnotin Hrest]; subst.
  cbn [getProp]. destruct (k' =? k) eqn:E.
  - apply String.eqb_eq in E. subst k'.
    destruct Hin as [Heq | Hin]; [now inversion Heq |].
    exfalso. apply Hnotin. now apply (in_map fst) in Hin.
  - destruct Hin as [Heq | Hin].
    + inversion Heq; subst. now rewrite String.eqb_refl in E.
    + now apply IH.
Qed.

Lemma getProp_exampleDefaults (arg : JSObject) (k : string) (v : JSValue) :
  Permutation arg exampleDefaults -> In (k, v) exampleDefaults ->
  getProp arg k = v.
Proof.
  intros Hp Hin. apply getProp_In.
  - apply (Permutation_NoDup (l := map fst exampleDefaults)).
    + apply Permutation_sym, Permutation_map, Hp.
    + cbn. repeat constructor; cbn; intuition discriminate.
  - eapply Permutation_in; [apply Permutation_sym, Hp | exact Hin].
Qed.

Lemma defaultFragment_string (prefix : string) (v : JSValue) (s : string) :
  ToBoolean v = true -> ToString v = Normal s ->
  defaultFragment prefix v = [(prefix ++ s)%string].
Proof. intros Hb Hs. unfold defaultFragment. now rewrite Hb, Hs. Qed.

Lemma defaultFragment_falsy (prefix : string) (v : JSValue) :
  ToBoolean v = false -> defaultFragment prefix v = [].
Proof. intros Hb. unfold defaultFragment. now rewrite Hb. Qed.

Lemma defaultThrows_string (v : JSValue) (s : string) :
  ToString v = Normal s -> defaultThrows v = false.
Proof. intros Hs. unfold defaultThrows. rewrite Hs. apply andb_false_r. Qed.

Lemma default_names_silent :
  Forall (fun name => forall v,
            emits (QB.parseAdditionalArg (name, v)) (Normal tt) [])
         defaultNames.
Proof.
  repeat constructor; intros v; now apply emits_default_key.
Qed.

Lemma built_incomplete (arg : JSObject) :
  defaultsComplete arg = false ->
  built (QB.addArgument arg) = Throw TypeError.
Proof.
  intros Hn. unfold built, run. cbn [bind M_Monad].
  now rewrite (addArgument_incomplete arg newQueryBuilder Hn).
Qed.


(** C1, as the specification states it, fails: an argument with the five
    default keys, all truthy, whose [skip] has no string form makes the
    call throw a [TypeError] with no fragment pushed, so [build] is not
    reached. *)
Lemma C1_counterexample_skip_without_string :
  forallb (fun name =>
             ToBoolean
               (getProp [("skip", shadowed); ("top", VNum 2);
                         ("inlinecount", VStr "allpages");
                         ("expand", VStr "x"); ("orderBy", VStr "id desc")]
                        name))
          ["skip"; "top"; "inlinecount"; "expand"; "orderBy"] = true
  /\ QB.addArgument
       [("skip", shadowed); ("top", VNum 2); ("inlinecount", VStr "allpages");
        ("expand", VStr "x"); ("orderBy", VStr "id desc")]
       newQueryBuilder
     = (Throw TypeError,
        {| arguments :=
             [[("skip", shadowed); ("top", VNum 2);
               ("inlinecount", VStr "allpages");
               ("expand", VStr "x"); ("orderBy", VStr "id desc")]];
           joinedArgs := [] |})
  /\ built (QB.addArgument
              [("skip", shadowed); ("top", VNum 2);
               ("inlinecount", VStr "allpages");
               ("expand", VStr "x"); ("orderBy", VStr "id desc")])
     = Throw TypeError.
Proof. repeat split. Qed.

(** C1, amended.  When the five default keys of [arg] hold truthy values
    with the string forms [s1] to [s5], one call of [addArgument] appends
    their five fragments in the order [$skip], [$top], [$inlinecount],
    [$expand], [$orderBy], then whatever the second pass appends for the
    custom keys, and ends as the second pass ends; the values are read by
    name, so the order of the fields plays no part.  When the second pass
    returns, the call returns and [build], on a builder that was new
    before the call, returns "?" and these fragments joined by "&".  For
    the example of the specification, in whatever order its five fields
    are written, the call returns and the result is the string stated.
    When a default key holds a truthy value without string form, the call
    throws a [TypeError] and [build] is not reached. *)
Theorem C1_default_keys_fixed_order
    (arg : JSObject) (s1 s2 s3 s4 s5 : string) (q : QueryBuilder) :
  ToBoolean (getProp arg "skip") = true ->
  ToBoolean (getProp arg "top") = true ->
  ToBoolean (getProp arg "inlinecount") = true ->
  ToBoolean (getProp arg "expand") = true ->
  ToBoolean (getProp arg "orderBy") = true ->
  ToString (getProp arg "skip") = Normal s1 ->
  ToString (getProp arg "top") = Normal s2 ->
  ToString (getProp arg "inlinecount") = Normal s3 ->
  ToString (getProp arg "expand") = Normal s4 ->
  ToString (getProp arg "orderBy") = Normal s5 ->
  QB.addArgument arg q
  = (outcome (QB.parseAdditionalArgs arg),
     {| arguments := arguments q ++ [arg];
        joinedArgs :=
          joinedArgs q
          ++ [("$skip=" ++ s1)%string; ("$top=" ++ s2)%string;
              ("$inlinecount=" ++ s3)%string; ("$expand=" ++ s4)%string;
              ("$orderBy=" ++ s5)%string]
          ++ additionalFragments arg |})
  /\ (outcome (QB.parseAdditionalArgs arg) = Normal tt ->
      fst (QB.addArgument arg q) = Normal tt
      /\ built (QB.addArgument arg)
         = Normal ("?" ++ join "&"
                     ([("$skip=" ++ s1)%string; ("$top=" ++ s2)%string;
                       ("$inlinecount=" ++ s3)%string;
                       ("$expand=" ++ s4)%string;
                       ("$orderBy=" ++ s5)%string]
                      ++ additionalFragments arg))%string)
  /\ (forall fields : JSObject,
        Permutation fields exampleDefaults ->
        fst (QB.addArgument fields q) = Normal tt
        /\ built (QB.addArgument fields)
           = Normal "?$skip=10&$top=2&$inlinecount=allpages&$expand=x&$orderBy=id desc")
  /\ (forall bad : JSObject,
        defaultsComplete bad = false ->
        fst (QB.addArgument bad q) = Throw TypeError
        /\ built (QB.addArgument bad) = Throw TypeError).
Proof.
  intros Hb1 Hb2 Hb3 Hb4 Hb5 Hs1 Hs2 Hs3 Hs4 Hs5.
  assert (Hc : defaultsComplete arg = true).
  { unfold defaultsComplete, defaultSteps. cbn [forallb snd].
    now rewrite (defaultThrows_string _ _ Hs1), (defaultThrows_string _ _ Hs2),
      (defaultThrows_string _ _ Hs3), (defaultThrows_string _ _ Hs4),
      (defaultThrows_string _ _ Hs5). }
  assert (Heq : forall q', QB.addArgument arg q'
    = (outcome (QB.parseAdditionalArgs arg),
       {| arguments := arguments q' ++ [arg];
          joinedArgs :=
            joinedArgs q'
            ++ [("$skip=" ++ s1)%string; ("$top=" ++ s2)%string;
                ("$inlinecount=" ++ s3)%string; ("$expand=" ++ s4)%string;
                ("$orderBy=" ++ s5)%string]
            ++ additionalFragments arg |})).
  { intros q'. rewrite (addArgument_complete arg q' Hc).
    now rewrite (defaultFragment_string _ _ _ Hb1 Hs1),
      (defaultFragment_string _ _ _ Hb2 Hs2),
      (defaultFragment_string _ _ _ Hb3 Hs3),
      (defaultFragment_string _ _ _ Hb4 Hs4),
      (defaultFragment_string _ _ _ Hb5 Hs5). }
  split; [apply Heq |]. split; [| split].
  3: { intros bad Hn. split; [| now apply built_incomplete].
       now rewrite (addArgument_incomplete bad q Hn). }
  - intros Hout. rewrite Heq, Hout. split; [reflexivity |].
    unfold built, run. cbn [bind M_Monad]. rewrite Heq, Hout. reflexivity.
  - intros fields Hp.
    assert (Hsilent : emits (QB.parseAdditionalArgs fields) (Normal tt) []).
    { apply emits_parseAdditionalArgs_silent. intros e Hin.
      apply (Permutation_in _ Hp) in Hin. cbn in Hin.
      repeat (destruct Hin as [<- | Hin]; [reflexivity |]). easy. }
    assert (Hg : forall k v, In (k, v) exampleDefaults -> getProp fields k = v)
      by (intros k v; apply getProp_exampleDefaults, Hp).
    assert (Hf : forall q', QB.addArgument fields q'
      = (Normal tt,
         {| arguments := arguments q' ++ [fields];
            joinedArgs :=
              joinedArgs q'
              ++ ["$skip=10"; "$top=2"; "$inlinecount=allpages"; "$expand=x";
                  "$orderBy=id desc"] |})).
    { intros q'.
      assert (Hcf : defaultsComplete fields = true).
      { unfold defaultsComplete, defaultSteps. cbn [forallb snd].
        rewrite (Hg "skip" (VNum 10)), (Hg "top" (VNum 2)),
          (Hg "inlinecount" (VStr "allpages")), (Hg "expand" (VStr "x")),
          (Hg "orderBy" (VStr "id desc")) by (cbn; tauto).
        reflexivity. }
      rewrite (addArgument_complete fields q' Hcf).
      rewrite (emits_outcome _ _ _ Hsilent).
      unfold additionalFragments. rewrite (emits_emitted _ _ _ Hsilent).
      rewrite (Hg "skip" (VNum 10)), (Hg "top" (VNum 2)),
        (Hg "inlinecount" (VStr "allpages")), (Hg "expand" (VStr "x")),
        (Hg "orderBy" (VStr "id desc")) by (cbn; tauto).
      reflexivity. }
    split; [now rewrite Hf |].
    unfold built, run. cbn [bind M_Monad]. now rewrite Hf.
Qed.

Lemma C1_default_keys_fixed_order_witness :
  ToBoolean (getProp (rev exampleDefaults) "skip") = true
  /\ ToBoolean (getProp (rev exampleDefaults) "top") = true
  /\ ToBoolean (getProp (rev exampleDefaults) "inlinecount") = true
  /\ ToBoolean (getProp (rev exampleDefaults) "expand") = true
  /\ ToBoolean (getProp (rev exampleDefaults) "orderBy") = true
  /\ ToString (getProp (rev exampleDefaults) "skip") = Normal "10"
  /\ ToString (getProp (rev exampleDefaults) "top") = Normal "2"
  /\ ToString (getProp (rev exampleDefaults) "inlinecount") = Normal "allpages"
  /\ ToString (getProp (rev exampleDefaults) "expand") = Normal "x"
  /\ ToString (getProp (rev exampleDefaults) "orderBy") = Normal "id desc"
  /\ outcome (QB.parseAdditionalArgs (rev exampleDefaults)) = Normal tt
  /\ built (QB.addArgument (rev exampleDefaults))
     = Normal "?$skip=10&$top=2&$inlinecount=allpages&$expand=x&$orderBy=id desc"
  /\ Permutation (rev exampleDefaults) exampleDefaults
  /\ fst (QB.addArgument (rev exampleDefaults) newQueryBuilder) = Normal tt.
Proof.
  do 11 (split; [reflexivity |]).
  pose proof (C1_default_keys_fixed_order (rev exampleDefaults)
                "10" "2" "allpages" "x" "id desc" newQueryBuilder
                eq_refl eq_refl eq_refl eq_refl eq_refl
                eq_refl eq_refl eq_refl eq_refl eq_refl) as [_ [H [Hperm _]]].
  split; [exact (eq_trans (proj2 (H eq_refl)) eq_refl) |].
  assert (Hp : Permutation (rev exampleDefaults) exampleDefaults)
    by apply Permutation_sym, Permutation_rev.
  split; [exact Hp |].
  exact (proj1 (Hperm (rev exampleDefaults) Hp)).
Defined.

(** ** One call, from any state *)

(** C6, as the specification states it, fails: a truthy value of a
    default key that has no string form gives no fragment, the call
    throws a [TypeError]. *)
Lemma C6_counterexample_truthy_without_string :
  ToBoolean (getProp [("skip", shadowed)] "skip") = true
  /\ QB.addArgument [("skip", shadowed)] newQueryBuilder
     = (Throw TypeError,
        {| arguments := [[("skip", shadowed)]]; joinedArgs := [] |}).
Proof. repeat split. Qed.

(** C6, amended.  When no default key holds a truthy value without string
    form, what one call appends is, in this order, the fragments of
    [skip], [top], [inlinecount], [expand] and [orderBy], then those of
    the second pass, and the call ends as the second pass ends.  A
    default key gives no fragment when its value is falsy, as 0 and the
    empty string are, and the one fragment prefix-then-string when it is
    truthy and has a string form; the second pass appends nothing for the
    five default keys.  An argument whose default keys are all 0 or empty
    builds the empty string.  When some default key holds a truthy value
    without string form, the call throws a [TypeError] and the second
    pass is not run. *)
Theorem C6_falsy_default_values_dropped (arg : JSObject) (q : QueryBuilder) :
  defaultsComplete arg = true ->
  QB.addArgument arg q
  = (outcome (QB.parseAdditionalArgs arg),
     {| arguments := arguments q ++ [arg];
        joinedArgs :=
          joinedArgs q
          ++ defaultFragment "$skip=" (getProp arg "skip")
          ++ defaultFragment "$top=" (getProp arg "top")
          ++ defaultFragment "$inlinecount=" (getProp arg "inlinecount")
          ++ defaultFragment "$expand=" (getProp arg "expand")
          ++ defaultFragment "$orderBy=" (getProp arg "orderBy")
          ++ additionalFragments arg |})
  /\ (forall (prefix : string) (v : JSValue),
        ToBoolean v = false -> defaultFragment prefix v = [])
  /\ (forall (prefix : string) (v : JSValue) (s : string),
        ToBoolean v = true -> ToString v = Normal s ->
        defaultFragment prefix v = [(prefix ++ s)%string])
  /\ ToBoolean (VNum 0) = false
  /\ ToBoolean (VStr "") = false
  /\ Forall (fun name => forall v,
               emits (QB.parseAdditionalArg (name, v)) (Normal tt) [])
            ["skip"; "top"; "inlinecount"; "expand"; "orderBy"]
  /\ built (QB.addArgument
              [("skip", VNum 0); ("top", VNum 0); ("inlinecount", VStr "");
               ("expand", VStr ""); ("orderBy", VStr "")])
     = Normal ""
  /\ built (QB.addArgument
              [("skip", VNum 0); ("top", VNum 3); ("expand", VStr "");
               ("orderBy", VStr "id asc")])
     = Normal "?$top=3&$orderBy=id asc"
  /\ (forall (arg' : JSObject) (q' : QueryBuilder),
        defaultsComplete arg' = false ->
        fst (QB.addArgument arg' q') = Throw TypeError
        /\ joinedArgs (snd (QB.addArgument arg' q'))
           = joinedArgs q' ++ defaultFragments arg').
Proof.
  intros Hc. split; [apply (addArgument_complete arg q Hc) |].
  split; [intros; now apply defaultFragment_falsy |].
  split; [intros; now apply defaultFragment_string |].
  do 2 (split; [reflexivity |]).
  split; [apply default_names_silent |].
  do 2 (split; [reflexivity |]).
  intros arg' q' Hn. now rewrite (addArgument_incomplete arg' q' Hn).
Qed.

Lemma C6_falsy_default_values_dropped_witness :
  defaultsComplete
    [("skip", VNum 0); ("top", VNum 3); ("expand", VArr [VStr "a"; VNull]);
     ("orderBy", VStr ""); ("id", VNum 7)] = true
  /\ QB.addArgument
       [("skip", VNum 0); ("top", VNum 3); ("expand", VArr [VStr "a"; VNull]);
        ("orderBy", VStr ""); ("id", VNum 7)] newQueryBuilder
     = (Normal tt,
        {| arguments :=
             [[("skip", VNum 0); ("top", VNum 3);
               ("expand", VArr [VStr "a"; VNull]);
               ("orderBy", VStr ""); ("id", VNum 7)]];
           joinedArgs := ["$top=3"; "$expand=a,"; "id=7"] |})
  /\ defaultsComplete [("top", VNum 3); ("expand", shadowed)] = false
  /\ joinedArgs
       (snd (QB.addArgument [("top", VNum 3); ("expand", shadowed)]
               newQueryBuilder))
     = ["$top=3"].
Proof.
  split; [reflexivity |].
  pose proof (C6_falsy_default_values_dropped
                [("skip", VNum 0); ("top", VNum 3);
                 ("expand", VArr [VStr "a"; VNull]);
                 ("orderBy", VStr ""); ("id", VNum 7)]
                newQueryBuilder eq_refl) as [H1 [_ [_ [_ [_ [_ [_ [_ H2]]]]]]]].
  split; [exact (eq_trans H1 eq_refl) |].
  split; [reflexivity |].
  exact (eq_trans
           (proj2 (H2 [("top", VNum 3); ("expand", shadowed)] newQueryBuilder
                      eq_refl))
           eq_refl).
Defined.




(** C7, as the specification states it, fails on the order of the custom
    keys: a key that is an array index is enumerated before the other keys,
    whenever it was written.  For [{ b: "x", 1: "y" }] the fragment of [1]
    comes first. *)
Lemma C7_counterexample_index_key :
  built (QB.addArgument [("b", VStr "x"); ("1", VStr "y")])
  = Normal "?1=y&b=x"
  /\ flat_map entryFragments [("b", VStr "x"); ("1", VStr "y")]
     = ["b=x"; "1=y"]
  /\ ~ (forall arg : JSObject,
          additionalFragments arg = flat_map entryFragments arg).
Proof.
  split; [reflexivity |]. split; [reflexivity |].
  intros H. specialize (H [("b", VStr "x"); ("1", VStr "y")]). discriminate.
Qed.

(** C7, amended.  A call of [addArgument] appends the fragments of its
    argument after those already there, whether it returns or throws, so
    after two calls the fragments of the first argument precede those of
    the second.  The fragments of one argument are those of the default
    keys, up to the first one that throws, and then, if none did, those of
    the entries in the order of [Object.entries], up to the first entry on
    which the loop body throws.  In that order the entries whose key is an
    array index come first, by ascending index, and the others follow in
    the order they were written.  [build] joins the
    fragments in their order; [build] and [getArguments] leave the state
    as it is, and [flush] empties it. *)
Theorem C7_fragments_appended_in_order (a b : JSObject) (q : QueryBuilder) :
  joinedArgs (snd (QB.addArgument a q)) = joinedArgs q ++ fragmentsOf a
  /\ joinedArgs (snd (QB.addArgument b (snd (QB.addArgument a q))))
     = joinedArgs q ++ fragmentsOf a ++ fragmentsOf b
  /\ fragmentsOf a
     = defaultFragments a
       ++ (if defaultsComplete a then additionalFragments a else [])
  /\ additionalFragments a
     = flat_map entryFragments
         (visited QB.parseAdditionalArg (Object_entries a))
  /\ Object_entries a
     = map snd (indexEntries a) ++ filter isNamedKey a
  /\ Permutation (map snd (indexEntries a))
                 (filter (fun e => isArrayIndex (fst e)) a)
  /\ Sorted (fun e e' => (keyIndex e <= keyIndex e')%N)
            (map snd (indexEntries a))
  /\ Object_entries (filter isNamedKey a) = filter isNamedKey a
  /\ fst (QB.build (snd (QB.addArgument b
                          (snd (QB.addArgument a newQueryBuilder)))))
     = Normal (match fragmentsOf a ++ fragmentsOf b with
               | [] => ""
               | _ :: _ =>
                   ("?" ++ join "&" (fragmentsOf a ++ fragmentsOf b))%string
               end)
  /\ snd (QB.build q) = q
  /\ snd (QB.getArguments q) = q
  /\ joinedArgs (snd (QB.flush q)) = [].
Proof.
  rewrite !addArgument_eq. cbn [snd joinedArgs].
  split; [reflexivity |].
  split; [now rewrite app_assoc |].
  split; [apply fragmentsOf_split |].
  split; [apply additionalFragments_entries |].
  split; [reflexivity |].
  split; [apply indexEntries_perm |].
  split; [apply indexEntries_ascending |].
  split.
  { apply Object_entries_named_keys.
    apply forallb_forall. intros e He. now apply filter_In in He. }
  split; [| repeat split].
  unfold QB.build. cbn [fst snd joinedArgs newQueryBuilder app].
  now destruct (fragmentsOf a ++ fragmentsOf b).
Qed.

(** * Further properties of the builder *)

Lemma forOf_addArgument (args : list JSObject) (q : QueryBuilder) :
  forOf args QB.addArgument q
  = (outcome (forOf args QB.addArgument),
     {| arguments := arguments q ++ visited QB.addArgument args;
        joinedArgs :=
          joinedArgs q ++ flat_map fragmentsOf (visited QB.addArgument args) |}).
Proof.
  revert q. induction args as [| a rest IH]; intros q.
  - destruct q as [h j]. cbn. now rewrite !app_nil_r.
  - unfold outcome, run. cbn [forOf bind M_Monad visited].
    rewrite !addArgument_eq, outcome_addArgument.
    destruct (outcome (QB.parseArgument a)) as [[] | e]; cbn [throws].
    + rewrite !IH. cbn [fst snd arguments joinedArgs flat_map app].
      now rewrite <- !app_assoc.
    + cbn [fst flat_map app]. now rewrite app_nil_r.
Qed.

Lemma visited_addArgument_all (args : list JSObject) :
  noneFaulty args = true -> visited QB.addArgument args = args.
Proof.
  intros H. apply visited_no_throw.
  induction args as [| a rest IH]; [reflexivity |].
  unfold noneFaulty in H. cbn [forallb] in H.
  apply andb_true_iff in H as [Ha Hr].
  cbn [existsb]. rewrite throws_addArgument, (IH Hr).
  now destruct (faultyArgument a).
Qed.

Lemma outcome_chain_normal (args : list JSObject) :
  noneFaulty args = true -> outcome (forOf args QB.addArgument) = Normal tt.
Proof.
  intros H. unfold outcome, run.
  induction args as [| a rest IH]; [reflexivity |].
  unfold noneFaulty in H. cbn [forallb] in H.
  apply andb_true_iff in H as [Ha Hr].
  cbn [forOf bind M_Monad]. rewrite addArgument_eq.
  pose proof (throws_parseArgument a) as Ht.
  destruct (outcome (QB.parseArgument a)) as [[] | e].
  - rewrite forOf_addArgument. cbn [fst]. apply (IH Hr).
  - cbn in Ht. rewrite <- Ht in Ha. discriminate.
Qed.

Lemma outcome_chain_throw (before after : list JSObject) (bad : JSObject) :
  noneFaulty before = true -> faultyArgument bad = true ->
  outcome (forOf (before ++ bad :: after) QB.addArgument) = Throw TypeError.
Proof.
  intros Hb Hbad. unfold outcome, run.
  induction before as [| a rest IH]; cbn [app forOf bind M_Monad].
  - rewrite addArgument_eq.
    pose proof (throws_parseArgument bad) as Hp. rewrite Hbad in Hp.
    destruct (outcome (QB.parseArgument bad)) as [[] | []];
      [discriminate | reflexivity].
  - unfold noneFaulty in Hb. cbn [forallb] in Hb.
    apply andb_true_iff in Hb as [Ha Hr].
    rewrite addArgument_eq.
    pose proof (throws_parseArgument a) as Hp.
    destruct (outcome (QB.parseArgument a)) as [[] | e].
    + rewrite forOf_addArgument. cbn [fst]. apply (IH Hr).
    + cbn in Hp. rewrite <- Hp in Ha. discriminate.
Qed.

Lemma visited_chain_throw (before after : list JSObject) (bad : JSObject) :
  noneFaulty before = true -> faultyArgument bad = true ->
  visited QB.addArgument (before ++ bad :: after) = before ++ [bad].
Proof.
  intros Hb Hbad. induction before as [| a rest IH]; cbn [app visited].
  - now rewrite throws_addArgument, Hbad.
  - unfold noneFaulty in Hb. cbn [forallb] in Hb.
    apply andb_true_iff in Hb as [Ha Hr].
    rewrite throws_addArgument.
    destruct (faultyArgument a); [discriminate |]. now rewrite IH.
Qed.

(** X1.  A chain of calls of [addArgument] on none of whose arguments the
    call throws (no default key holds a truthy value without string form,
    and the loop body throws on no entry), from any state: every call
    returns normally, the history grows by the arguments in call order,
    the fragments grow by the fragments of each argument in call order,
    and [getArguments] returns the history. *)
Theorem X1_chain_of_calls (args : list JSObject) (q : QueryBuilder) :
  noneFaulty args = true ->
  fst (forOf args QB.addArgument q) = Normal tt
  /\ arguments (snd (forOf args QB.addArgument q)) = arguments q ++ args
  /\ joinedArgs (snd (forOf args QB.addArgument q))
     = joinedArgs q ++ flat_map fragmentsOf args
  /\ fst (QB.getArguments (snd (forOf args QB.addArgument q)))
     = Normal (arguments q ++ args)
  /\ List.length (arguments (snd (forOf args QB.addArgument q)))
     = (List.length (arguments q) + List.length args)%nat.
Proof.
  intros H. rewrite forOf_addArgument.
  rewrite (visited_addArgument_all args H).
  rewrite (outcome_chain_normal args H).
  cbn [fst snd arguments joinedArgs QB.getArguments].
  repeat split. apply length_app.
Qed.

Lemma X1_chain_of_calls_witness :
  noneFaulty [[("skip", VNum 2)]; [("top", VNum 10); ("id", VStr "a")]] = true
  /\ joinedArgs
       (snd (forOf [[("skip", VNum 2)]; [("top", VNum 10); ("id", VStr "a")]]
               QB.addArgument newQueryBuilder))
     = ["$skip=2"; "$top=10"; "id=a"].
Proof.
  split; [reflexivity |].
  pose proof (X1_chain_of_calls
                [[("skip", VNum 2)]; [("top", VNum 10); ("id", VStr "a")]]
                newQueryBuilder eq_refl) as [_ [_ [H _]]].
  exact (eq_trans H eq_refl).
Defined.

(** X2.  A chain of calls stops at the first argument on which
    [addArgument] throws, be it at a default key or in the loop over the
    entries.  The arguments up to and including that one are in the
    history, their fragments (for the last one, those pushed before the
    throw) are kept, and the later arguments leave no trace. *)
Theorem X2_chain_stops_at_first_throw
    (before after : list JSObject) (bad : JSObject) (q : QueryBuilder) :
  noneFaulty before = true ->
  faultyArgument bad = true ->
  fst (forOf (before ++ bad :: after) QB.addArgument q) = Throw TypeError
  /\ arguments (snd (forOf (before ++ bad :: after) QB.addArgument q))
     = arguments q ++ before ++ [bad]
  /\ joinedArgs (snd (forOf (before ++ bad :: after) QB.addArgument q))
     = joinedArgs q ++ flat_map fragmentsOf before ++ fragmentsOf bad.
Proof.
  intros Hb Hbad.
  rewrite forOf_addArgument, (visited_chain_throw _ _ _ Hb Hbad),
    (outcome_chain_throw _ _ _ Hb Hbad).
  cbn [fst snd arguments joinedArgs].
  repeat split.
  rewrite flat_map_app. cbn [flat_map]. now rewrite app_nil_r.
Qed.

Lemma X2_chain_stops_at_first_throw_witness :
  noneFaulty [[("skip", VNum 2)]] = true
  /\ faultyArgument [("top", VNum 1); ("id", VNull)] = true
  /\ joinedArgs
       (snd (forOf [[("skip", VNum 2)]; [("top", VNum 1); ("id", VNull)];
                    [("top", VNum 9)]]
               QB.addArgument newQueryBuilder))
     = ["$skip=2"; "$top=1"]
  /\ faultyArgument [("top", VNum 1); ("expand", shadowed); ("id", VNum 4)]
     = true
  /\ joinedArgs
       (snd (forOf [[("skip", VNum 2)];
                    [("top", VNum 1); ("expand", shadowed); ("id", VNum 4)];
                    [("top", VNum 9)]]
               QB.addArgument newQueryBuilder))
     = ["$skip=2"; "$top=1"].
Proof.
  do 2 (split; [reflexivity |]).
  pose proof (X2_chain_stops_at_first_throw
                [[("skip", VNum 2)]] [[("top", VNum 9)]]
                [("top", VNum 1); ("id", VNull)] newQueryBuilder
                eq_refl eq_refl) as [_ [_ H]].
  split; [exact (eq_trans H eq_refl) |].
  split; [reflexivity |].
  pose proof (X2_chain_stops_at_first_throw
                [[("skip", VNum 2)]] [[("top", VNum 9)]]
                [("top", VNum 1); ("expand", shadowed); ("id", VNum 4)]
                newQueryBuilder eq_refl eq_refl) as [_ [_ H']].
  exact (eq_trans H' eq_refl).
Defined.

(** X3.  [isAttributeArg] throws a [TypeError] exactly on [null] and
    [undefined]; on every other value it answers, and the answer is [true]
    exactly for an object whose fields [key] and [value] are both different
    from [undefined] ([null] counts as a value).  Booleans, numbers,
    strings and arrays are never attribute pairs. *)
Theorem X3_isAttributeArg_structural (item : JSValue) :
  QB.isAttributeArg item
  = (if isNullish item then Throw TypeError
     else Normal (match item with
                  | VObj fields => hasKeyAndValue fields
                  | _ => false
                  end))
  /\ QB.isAttributeArg (VObj [("key", VNull); ("value", VNull)]) = Normal true
  /\ QB.isAttributeArg (VObj [("key", VStr "a"); ("value", VUndefined)])
     = Normal false.
Proof.
  split; [| split; reflexivity].
  destruct item; try reflexivity. apply isAttributeArg_pair.
Qed.

Lemma attributeString_nullish (el : JSValue) :
  isNullish el = true -> attributeString el = Throw TypeError.
Proof. now destruct el. Qed.

Lemma isPair_attribute (first : JSValue) :
  isPair first = true -> QB.isAttributeArg first = Normal true.
Proof.
  unfold isPair. destruct (QB.isAttributeArg first) as [b | e];
    [now intros -> | discriminate].
Qed.

(** X4.  A sequence whose first element is an attribute pair is handled
    element by element as attribute pairs, whatever the later elements
    are.  While the string `${el.key}=${el.value}` of the elements can be
    formed, each pushes it, which is "undefined=undefined" for a string, a
    number, a boolean or an array; the key of the entry is never used.  At
    the first element for which it cannot be formed, as for [null] and
    [undefined], the call throws a [TypeError]: the fragments of the
    elements before it stay pushed and the elements after it are not
    looked at. *)
Theorem X4_sequence_in_attribute_mode
    (k : string) (first : JSValue) (good rest : list JSValue) (bad : JSValue)
    (frags : list string) :
  isPair first = true ->
  mapC attributeString (first :: good) = Normal frags ->
  attributeString bad = Throw TypeError ->
  emits (QB.handleArrayArg k (first :: good)) (Normal tt) frags
  /\ emits (QB.handleArrayArg k (first :: good ++ bad :: rest))
           (Throw TypeError) frags
  /\ (forall el : JSValue,
        isNullish el = true -> attributeString el = Throw TypeError)
  /\ attributeString (VStr "LOW") = Normal "undefined=undefined".
Proof.
  intros Hp Hg Hb. pose proof (isPair_attribute first Hp) as Hattr.
  split; [| split; [| split; [apply attributeString_nullish | reflexivity]]].
  - intros q. unfold QB.handleArrayArg. cbn [bind M_Monad liftC].
    rewrite Hattr.
    now apply (emits_forOf_strings attributeString QB.handleAttributeArgument
                 emits_attribute_normal (first :: good) frags).
  - intros q. unfold QB.handleArrayArg. cbn [bind M_Monad liftC].
    rewrite Hattr.
    now apply (emits_forOf_strings_throw attributeString
                 QB.handleAttributeArgument
                 emits_attribute_normal emits_attribute_throw
                 (first :: good) rest bad frags TypeError).
Qed.

Lemma X4_sequence_in_attribute_mode_witness :
  isPair (VObj [("key", VStr "a"); ("value", VStr "1")]) = true
  /\ mapC attributeString
       [VObj [("key", VStr "a"); ("value", VStr "1")]; VStr "LOW";
        VObj [("key", VStr "b")]]
     = Normal ["a=1"; "undefined=undefined"; "b=undefined"]
  /\ attributeString VNull = Throw TypeError
  /\ QB.handleArrayArg "attributes"
       [VObj [("key", VStr "a"); ("value", VStr "1")]; VStr "LOW";
        VObj [("key", VStr "b")]; VNull; VStr "x"] newQueryBuilder
     = (Throw TypeError,
        {| arguments := [];
           joinedArgs := ["a=1"; "undefined=undefined"; "b=undefined"] |})
  /\ attributeString (VObj [("key", VStr "c"); ("value", shadowed)])
     = Throw TypeError
  /\ QB.handleArrayArg "attributes"
       [VObj [("key", VStr "a"); ("value", VStr "1")];
        VObj [("key", VStr "c"); ("value", shadowed)]; VStr "x"]
       newQueryBuilder
     = (Throw TypeError, {| arguments := []; joinedArgs := ["a=1"] |}).
Proof.
  do 3 (split; [reflexivity |]).
  pose proof (X4_sequence_in_attribute_mode "attributes"
                (VObj [("key", VStr "a"); ("value", VStr "1")])
                [VStr "LOW"; VObj [("key", VStr "b")]] [VStr "x"] VNull
                ["a=1"; "undefined=undefined"; "b=undefined"]
                eq_refl eq_refl eq_refl) as [_ [H _]].
  split; [exact (eq_trans (H newQueryBuilder) eq_refl) |].
  split; [reflexivity |].
  pose proof (X4_sequence_in_attribute_mode "attributes"
                (VObj [("key", VStr "a"); ("value", VStr "1")])
                [] [VStr "x"]
                (VObj [("key", VStr "c"); ("value", shadowed)])
                ["a=1"] eq_refl eq_refl eq_refl) as [_ [H' _]].
  exact (eq_trans (H' newQueryBuilder) eq_refl).
Defined.

Lemma ToString_strings (l : list string) :
  ToString (VArr (map VStr l)) = Normal (join "," l).
Proof.
  cbn [ToString].
  assert (H : mapC (fun e => if isNullish e then Normal ""%string
                             else ToString e) (map VStr l) = Normal l).
  { induction l as [| s rest IH]; [reflexivity |].
    cbn [map]. rewrite mapC_cons, IH. reflexivity. }
  now rewrite H.
Qed.

(** X5.  When [expand] is a sequence of strings and no default key holds
    a truthy value without string form, one call pushes for [expand] a
    single fragment, "$expand=" followed by the strings joined by commas,
    between the fragments of [inlinecount] and of [orderBy]; the sequence
    is not flattened into one fragment per element as it would be at a
    custom key. *)
Theorem X5_expand_sequence_one_fragment
    (arg : JSObject) (names : list string) (q : QueryBuilder) :
  getProp arg "expand" = VArr (map VStr names) ->
  defaultsComplete arg = true ->
  QB.addArgument arg q
  = (outcome (QB.parseAdditionalArgs arg),
     {| arguments := arguments q ++ [arg];
        joinedArgs :=
          joinedArgs q
          ++ defaultFragment "$skip=" (getProp arg "skip")
          ++ defaultFragment "$top=" (getProp arg "top")
          ++ defaultFragment "$inlinecount=" (getProp arg "inlinecount")
          ++ [("$expand=" ++ join "," names)%string]
          ++ defaultFragment "$orderBy=" (getProp arg "orderBy")
          ++ additionalFragments arg |}).
Proof.
  intros He Hc. rewrite (addArgument_complete arg q Hc), He.
  unfold defaultFragment at 4. cbn [ToBoolean].
  now rewrite ToString_strings.
Qed.

Lemma X5_expand_sequence_one_fragment_witness :
  getProp [("expand", VArr [VStr "attributes"; VStr "context"]);
           ("status", VArr [VStr "RUNNING"; VStr "ERRONEOUS"])] "expand"
  = VArr (map VStr ["attributes"; "context"])
  /\ defaultsComplete
       [("expand", VArr [VStr "attributes"; VStr "context"]);
        ("status", VArr [VStr "RUNNING"; VStr "ERRONEOUS"])] = true
  /\ QB.addArgument
       [("expand", VArr [VStr "attributes"; VStr "context"]);
        ("status", VArr [VStr "RUNNING"; VStr "ERRONEOUS"])]
       newQueryBuilder
     = (Normal tt,
        {| arguments :=
             [[("expand", VArr [VStr "attributes"; VStr "context"]);
               ("status", VArr [VStr "RUNNING"; VStr "ERRONEOUS"])]];
           joinedArgs :=
             ["$expand=attributes,context"; "status=RUNNING";
              "status=ERRONEOUS"] |}).
Proof.
  do 2 (split; [reflexivity |]).
  pose proof (X5_expand_sequence_one_fragment
                [("expand", VArr [VStr "attributes"; VStr "context"]);
                 ("status", VArr [VStr "RUNNING"; VStr "ERRONEOUS"])]
                ["attributes"; "context"] newQueryBuilder eq_refl eq_refl)
    as H.
  exact (eq_trans H eq_refl).
Defined.

(** X6.  At a key outside [DEFAULT_KEYS], a value that is not [undefined],
    not [null], not an array and not an attribute pair, and that has the
    string form [s], pushes exactly "<key>=<s>", copied as it is: a string
    is not escaped, and an object that lacks [key] or [value] gives
    "[object Object]". *)
Theorem X6_plain_value_at_custom_key
    (k : string) (v : JSValue) (s : string) (q : QueryBuilder) :
  QB.isDefaultKey k = false ->
  isNullish v = false ->
  isArray v = false ->
  isPair v = false ->
  ToString v = Normal s ->
  QB.addArgument [(k, v)] q
  = (Normal tt,
     {| arguments := arguments q ++ [[(k, v)]];
        joinedArgs := joinedArgs q ++ [(k ++ "=" ++ s)%string] |})
  /\ (forall fields : JSObject, v = VObj fields -> s = "[object Object]")
  /\ (forall s' : string, v = VStr s' -> s = s').
Proof.
  intros Hk Hn Ha Hp Hs.
  split; [| split].
  - apply addArgument_one; [exact Hk |].
    assert (Hattr : QB.isAttributeArg v = Normal false).
    { unfold isPair in Hp. destruct v; try discriminate; try reflexivity.
      rewrite isAttributeArg_pair in Hp |- *. now rewrite Hp. }
    intros q'. unfold QB.parseAdditionalArg. rewrite Hk.
    assert (Hd : QB.isDefined v = true) by (destruct v; easy || discriminate).
    rewrite Hd. cbn [negb orb].
    assert (Hbody : (isAttr <- liftC (QB.isAttributeArg v) ;;
                     if isAttr then QB.handleAttributeArgument v
                     else (s' <- liftC (ToString v) ;;
                           joinedArgs_push (k ++ "=" ++ s')))%string q'
                    = (Normal tt,
                       {| arguments := arguments q';
                          joinedArgs := joinedArgs q' ++ [(k ++ "=" ++ s)%string] |})).
    { cbn [bind M_Monad liftC]. rewrite Hattr.
      apply (emits_keyed_normal k v). now rewrite Hs. }
    destruct v; try discriminate; exact Hbody.
  - intros fields ->. cbn [ToString] in Hs.
    destruct (hasOwnProperty fields "toString"); [discriminate |].
    now inversion Hs.
  - intros s' ->. now inversion Hs.
Qed.

Lemma X6_plain_value_at_custom_key_witness :
  QB.isDefaultKey "containsText" = false
  /\ isNullish (VStr "a&b=c d") = false
  /\ isArray (VStr "a&b=c d") = false
  /\ isPair (VStr "a&b=c d") = false
  /\ ToString (VStr "a&b=c d") = Normal "a&b=c d"
  /\ built (QB.addArgument [("containsText", VStr "a&b=c d")])
     = Normal "?containsText=a&b=c d".
Proof.
  do 5 (split; [reflexivity |]).
  pose proof (X6_plain_value_at_custom_key "containsText" (VStr "a&b=c d")
                "a&b=c d" newQueryBuilder
                eq_refl eq_refl eq_refl eq_refl eq_refl)
    as [H _].
  unfold built, run. cbn [bind M_Monad]. rewrite H. reflexivity.
Defined.

(** ** Fields that hold [undefined] *)

Lemma getProp_absent (o : JSObject) (name : string) :
  ~ In name (map fst o) -> getProp o name = VUndefined.
Proof.
  induction o as [| [k v] rest IH]; intros H; [reflexivity |].
  cbn [getProp]. destruct (k =? name) eqn:E.
  - apply String.eqb_eq in E. exfalso. apply H. now left.
  - apply IH. intros Hin. apply H. now right.
Qed.

Lemma getProp_filter_defined (o : JSObject) (name : string) :
  NoDup (map fst o) ->
  getProp (filter definedEntry o) name = getProp o name.
Proof.
  induction o as [| [k v] rest IH]; intros Hnd; [reflexivity |].
  cbn [map fst] in Hnd. inversion Hnd as [| ? ? Hnotin Hrest]; subst.
  cbn [filter]. unfold definedEntry at 1. cbn [snd].
  destruct (QB.isDefined v) eqn:Ed; cbn [getProp].
  - now rewrite IH.
  - rewrite IH by exact Hrest. destruct v; try discriminate.
    destruct (k =? name) eqn:E; [| reflexivity].
    apply String.eqb_eq in E. subst. now apply getProp_absent.
Qed.

Lemma insertByIndex_least i e l :
  Forall (fun x => (i <= fst x)%N) l -> insertByIndex i e l = (i, e) :: l.
Proof.
  destruct l as [| [j e'] rest]; [reflexivity |].
  intros H. inversion H as [| ? ? Hj _]; subst. cbn in Hj |- *.
  apply N.leb_le in Hj. now rewrite Hj.
Qed.

Lemma sorted_indices_above (j : N) (e : string * JSValue) l :
  Sorted N.le (map fst ((j, e) :: l)) -> Forall (fun x => (j <= fst x)%N) l.
Proof.
  cbn [map fst]. intros Hs. apply Sorted_StronglySorted in Hs.
  - apply StronglySorted_inv in Hs as [_ Hall].
    rewrite Forall_map in Hall. exact Hall.
  - intros x y z. apply N.le_trans.
Qed.

Section FilterEntries.

Variable keep : string * JSValue -> bool.

Lemma insertByIndex_filter_drop i e l :
  keep e = false ->
  filter (fun x => keep (snd x)) (insertByIndex i e l)
  = filter (fun x => keep (snd x)) l.
Proof.
  intros Hk. induction l as [| [j e'] rest IH]; cbn [insertByIndex filter snd].
  - now rewrite Hk.
  - destruct (i <=? j)%N; cbn [filter snd].
    + now rewrite Hk.
    + now rewrite IH.
Qed.

Lemma insertByIndex_filter_keep i e l :
  keep e = true -> Sorted N.le (map fst l) ->
  filter (fun x => keep (snd x)) (insertByIndex i e l)
  = insertByIndex i e (filter (fun x => keep (snd x)) l).
Proof.
  intros Hk. induction l as [| [j e'] rest IH]; intros Hs;
    cbn [insertByIndex filter snd].
  - now rewrite Hk.
  - pose proof (sorted_indices_above j e' rest Hs) as Habove.
    assert (Hrest : Sorted N.le (map fst rest)) by now inversion Hs.
    destruct (i <=? j)%N eqn:E; cbn [filter snd]; rewrite ?Hk.
    + apply N.leb_le in E. destruct (keep e'); cbn [insertByIndex].
      * apply N.leb_le in E. now rewrite E.
      * symmetry. apply insertByIndex_least.
        apply incl_Forall with (l1 := rest); [apply incl_filter |].
        eapply Forall_impl; [| exact Habove]. cbn. intros x Hx. lia.
    + destruct (keep e'); cbn [insertByIndex].
      * rewrite E. now rewrite IH.
      * now apply IH.
Qed.

Lemma indexEntries_filter (o : JSObject) :
  indexEntries (filter keep o)
  = filter (fun x => keep (snd x)) (indexEntries o).
Proof.
  induction o as [| [k v] rest IH]; [reflexivity |].
  cbn [filter indexEntries].
  destruct (keep (k, v)) eqn:Ek; cbn [indexEntries];
    destruct (arrayIndex k) as [i |]; try exact IH.
  - rewrite IH. symmetry.
    apply insertByIndex_filter_keep; [exact Ek | apply indexEntries_sorted].
  - rewrite IH. symmetry. now apply insertByIndex_filter_drop.
Qed.

Lemma map_snd_filter (l : list (N * (string * JSValue))) :
  map snd (filter (fun x => keep (snd x)) l) = filter keep (map snd l).
Proof.
  induction l as [| [i e] rest IH]; [reflexivity |].
  cbn [filter map snd]. destruct (keep e); cbn [map snd]; now rewrite IH.
Qed.

Lemma filter_swap {A : Type} (f g : A -> bool) (l : list A) :
  filter f (filter g l) = filter g (filter f l).
Proof.
  induction l as [| x rest IH]; [reflexivity |].
  cbn [filter]. destruct (f x) eqn:Ef, (g x) eqn:Eg; cbn [filter];
    rewrite ?Ef, ?Eg, IH; reflexivity.
Qed.

(** Leaving entries out of an object leaves them out of its
    [Object.entries], and keeps the order of the others. *)
Lemma Object_entries_filter (o : JSObject) :
  Object_entries (filter keep o) = filter keep (Object_entries o).
Proof.
  unfold Object_entries.
  rewrite filter_app, indexEntries_filter, map_snd_filter.
  f_equal. apply filter_swap.
Qed.

End FilterEntries.

Lemma forOf_filter_silent (es : list (string * JSValue)) (q : QueryBuilder) :
  forOf (filter definedEntry es) QB.parseAdditionalArg q
  = forOf es QB.parseAdditionalArg q.
Proof.
  revert q. induction es as [| [k v] rest IH]; intros q; [reflexivity |].
  cbn [filter]. unfold definedEntry at 1. cbn [snd].
  destruct (QB.isDefined v) eqn:Ed; cbn [forOf bind M_Monad].
  - destruct (QB.parseAdditionalArg (k, v) q) as [[[] | e] q'];
      [apply IH | reflexivity].
  - unfold QB.parseAdditionalArg. rewrite Ed, orb_true_r. cbn. apply IH.
Qed.

Lemma runSteps_pointwise (steps : list (string * JSValue)) (n n' : M unit) :
  (forall q, n q = n' q) ->
  forall q, runSteps steps n q = runSteps steps n' q.
Proof.
  intros H. induction steps as [| [prefix v] rest IH]; intros q; [apply H |].
  cbn [runSteps bind M_Monad].
  destruct (defaultStatement prefix v q) as [[[] | e] q'];
    [apply IH | reflexivity].
Qed.

(** X7.  A field that holds [undefined] is the same as no field: for an
    object with pairwise distinct keys, [parseArgument] ends the same way
    and leaves the same state on the object and on the object without its
    [undefined] fields, from any state, and so does [addArgument] as far
    as its completion and the fragments go. *)
Theorem X7_undefined_fields_ignored (arg : JSObject) (q : QueryBuilder) :
  NoDup (map fst arg) ->
  QB.parseArgument (filter definedEntry arg) q = QB.parseArgument arg q
  /\ fst (QB.addArgument (filter definedEntry arg) q)
     = fst (QB.addArgument arg q)
  /\ joinedArgs (snd (QB.addArgument (filter definedEntry arg) q))
     = joinedArgs (snd (QB.addArgument arg q)).
Proof.
  intros Hnd.
  assert (Hadd : forall q', QB.parseAdditionalArgs (filter definedEntry arg) q'
                            = QB.parseAdditionalArgs arg q').
  { intros q'. unfold QB.parseAdditionalArgs.
    rewrite Object_entries_filter. apply forOf_filter_silent. }
  assert (Hparse : forall q', QB.parseArgument (filter definedEntry arg) q'
                              = QB.parseArgument arg q').
  { intros q'.
    change (runSteps (defaultSteps (filter definedEntry arg))
              (QB.parseAdditionalArgs (filter definedEntry arg)) q'
            = runSteps (defaultSteps arg) (QB.parseAdditionalArgs arg) q').
    unfold defaultSteps. rewrite !getProp_filter_defined by exact Hnd.
    now apply runSteps_pointwise. }
  split; [apply Hparse |].
  rewrite !addArgument_eq. cbn [fst snd joinedArgs].
  unfold outcome, fragmentsOf, emitted, run. now rewrite Hparse.
Qed.

Lemma X7_undefined_fields_ignored_witness :
  NoDup (map fst [("skip", VUndefined); ("id", VStr "a");
                  ("subject", VUndefined); ("top", VNum 3)])
  /\ QB.parseArgument [("skip", VUndefined); ("id", VStr "a");
                       ("subject", VUndefined); ("top", VNum 3)]
       newQueryBuilder
     = QB.parseArgument [("id", VStr "a"); ("top", VNum 3)] newQueryBuilder.
Proof.
  assert (Hnd : NoDup (map fst [("skip", VUndefined); ("id", VStr "a");
                                ("subject", VUndefined); ("top", VNum 3)])).
  { cbn. repeat constructor; cbn; intuition discriminate. }
  split; [exact Hnd |].
  pose proof (X7_undefined_fields_ignored
                [("skip", VUndefined); ("id", VStr "a");
                 ("subject", VUndefined); ("top", VNum 3)]
                newQueryBuilder Hnd) as [H _].
  symmetry. exact H.
Defined.

(** ** The shape of the fragments *)

Lemma containsChar_app (c : ascii) (s t : string) :
  containsChar c (s ++ t) = containsChar c s || containsChar c t.
Proof.
  induction s as [| c' rest IH]; [reflexivity |].
  cbn [String.append containsChar]. now rewrite IH, orb_assoc.
Qed.

Lemma hasEquals_prefixed (prefix s : string) :
  hasEquals prefix = true -> hasEquals (prefix ++ s) = true.
Proof.
  unfold hasEquals. intros H. now rewrite containsChar_app, H.
Qed.

Lemma hasEquals_assignment (name value : string) :
  hasEquals (name ++ "=" ++ value) = true.
Proof.
  unfold hasEquals. rewrite !containsChar_app. cbn. apply orb_true_r.
Qed.

Section Pushes.

Variable P : string -> Prop.

Lemma pushes_ret {A : Type} (a : A) : pushes P (ret a).
Proof. exists (Normal a), []. split; [apply emits_ret | constructor]. Qed.

Lemma pushes_liftC {A : Type} (c : completion A) : pushes P (liftC c).
Proof. exists c, []. split; [apply emits_liftC | constructor]. Qed.

Lemma pushes_push (s : string) : P s -> pushes P (joinedArgs_push s).
Proof.
  intros H. exists (Normal tt), [s]. split; [apply emits_push | now constructor].
Qed.

Lemma pushes_bind {A B : Type} (m : M A) (f : A -> M B) :
  pushes P m -> (forall a, pushes P (f a)) -> pushes P (x <- m ;; f x).
Proof.
  intros [[a | e] [fs [Hm Hfs]]] Hf.
  - destruct (Hf a) as [c [gs [Hg Hgs]]].
    exists c, (fs ++ gs). split.
    + eapply emits_bind_normal; eauto.
    + apply Forall_app. now split.
  - exists (Throw e), fs. split; [now apply emits_bind_throw | exact Hfs].
Qed.

Lemma pushes_if {A : Type} (b : bool) (m1 m2 : M A) :
  pushes P m1 -> pushes P m2 -> pushes P (if b then m1 else m2).
Proof. now destruct b. Qed.

Lemma pushes_forOf {A : Type} (xs : list A) (body : A -> M unit) :
  (forall x, pushes P (body x)) -> pushes P (forOf xs body).
Proof.
  intros Hb. induction xs as [| x rest IH]; cbn [forOf].
  - apply pushes_ret.
  - apply pushes_bind; auto.
Qed.

Lemma pushes_emitted {A : Type} (m : M A) :
  pushes P m -> Forall P (emitted m).
Proof.
  intros [c [fs [Hm Hfs]]]. now rewrite (emits_emitted _ _ _ Hm).
Qed.

End Pushes.

Lemma pushes_handleAttributeArgument (arg : JSValue) :
  pushes shaped (QB.handleAttributeArgument arg).
Proof.
  unfold QB.handleAttributeArgument.
  do 4 (apply pushes_bind; [apply pushes_liftC | intro]).
  apply pushes_push, hasEquals_assignment.
Qed.

Lemma pushes_handleArrayArg (key : string) (values : list JSValue) :
  pushes shaped (QB.handleArrayArg key values).
Proof.
  unfold QB.handleArrayArg. destruct values as [| first rest].
  - apply pushes_ret.
  - apply pushes_bind; [apply pushes_liftC | intros isAttr].
    apply pushes_if; apply pushes_forOf; intros el.
    + apply pushes_handleAttributeArgument.
    + apply pushes_bind; [apply pushes_liftC | intro].
      apply pushes_push, hasEquals_assignment.
Qed.

Lemma pushes_parseAdditionalArg (entry : string * JSValue) :
  pushes shaped (QB.parseAdditionalArg entry).
Proof.
  destruct entry as [k v]. unfold QB.parseAdditionalArg.
  apply pushes_if; [apply pushes_ret |].
  destruct v;
    try (apply pushes_bind; [apply pushes_liftC | intros isAttr];
         apply pushes_if;
         [apply pushes_handleAttributeArgument
         | apply pushes_bind; [apply pushes_liftC | intro];
           apply pushes_push, hasEquals_assignment]).
  apply pushes_handleArrayArg.
Qed.

Lemma pushes_parseArgument (arg : JSObject) :
  pushes shaped (QB.parseArgument arg).
Proof.
  unfold QB.parseArgument.
  repeat (apply pushes_bind;
          [apply pushes_if;
           [apply pushes_bind; [apply pushes_liftC | intro];
            apply pushes_push, hasEquals_prefixed; reflexivity
           | apply pushes_ret]
          | intros _]).
  unfold QB.parseAdditionalArgs. apply pushes_forOf.
  apply pushes_parseAdditionalArg.
Qed.

(** X8.  Every fragment [addArgument] pushes holds the character "=",
    whatever the argument and whether or not the call throws: if all the
    fragments of the builder have it before the call, all have it after.
    So have all the fragments of a builder that was new before any chain
    of calls, and [build] then returns either the empty string or "?"
    followed by fragments that each hold "=". *)
Theorem X8_fragments_hold_equals (arg : JSObject) (q : QueryBuilder) :
  Forall (fun s => hasEquals s = true) (joinedArgs q) ->
  Forall (fun s => hasEquals s = true) (joinedArgs (snd (QB.addArgument arg q)))
  /\ Forall (fun s => hasEquals s = true) (fragmentsOf arg)
  /\ (forall args : list JSObject,
        Forall (fun s => hasEquals s = true)
               (joinedArgs (snd (forOf args QB.addArgument newQueryBuilder)))).
Proof.
  intros Hq.
  assert (Hfr : forall a, Forall shaped (fragmentsOf a)).
  { intros a. apply pushes_emitted, pushes_parseArgument. }
  split; [| split].
  - rewrite addArgument_eq. cbn [snd joinedArgs].
    apply Forall_app. split; [exact Hq | apply Hfr].
  - apply Hfr.
  - intros args. rewrite forOf_addArgument. cbn [snd joinedArgs app].
    apply Forall_flat_map. apply Forall_forall. intros a _. apply Hfr.
Qed.

Lemma X8_fragments_hold_equals_witness :
  Forall (fun s => hasEquals s = true) ["$top=5"]
  /\ Forall (fun s => hasEquals s = true)
       (joinedArgs
          (snd (QB.addArgument
                  [("id", VStr ""); ("attributes", VArr [VObj [("key", VNum 1); ("value", VNull)]; VNull])]
                  {| arguments := []; joinedArgs := ["$top=5"] |}))).
Proof.
  assert (H : Forall (fun s => hasEquals s = true) ["$top=5"])
    by (repeat constructor).
  split; [exact H |].
  exact (proj1 (X8_fragments_hold_equals
                  [("id", VStr ""); ("attributes", VArr [VObj [("key", VNum 1); ("value", VNull)]; VNull])]
                  {| arguments := []; joinedArgs := ["$top=5"] |} H)).
Defined.

(** ** The normalizer *)

(** X9.  [constructQuery] never throws, on any of the four kinds of input.
    Its result is the empty string exactly for [undefined], [null], the
    empty string and a builder without fragments; for a builder with
    fragments it is "?" followed by the fragments joined by "&". *)
Theorem X9_constructQuery_total (query : QueryInput) :
  throws (constructQuery query) = false
  /\ (constructQuery query = Normal "" <-> emptyInput query = true)
  /\ (forall (q : QueryBuilder) (f : string) (fs : list string),
        query = QBuilder q -> joinedArgs q = f :: fs ->
        constructQuery query = Normal ("?" ++ join "&" (f :: fs))%string).
Proof.
  split; [| split].
  - destruct query as [| | s | q]; try reflexivity.
    unfold constructQuery, isFalsy. now destruct (s =? "").
  - destruct query as [| | s | q]; cbn [emptyInput]; try (split; reflexivity).
    + unfold constructQuery, isFalsy. destruct (s =? "") eqn:E.
      * split; reflexivity.
      * split; [| discriminate]. intros H. inversion H; subst.
        now rewrite String.eqb_refl in E.
    + unfold constructQuery, isFalsy, QB.build. cbn [fst].
      destruct (joinedArgs q) as [| f fs]; cbn [List.length Nat.leb].
      * split; reflexivity.
      * split; discriminate.
  - intros q f fs -> Hj. unfold constructQuery, isFalsy, QB.build. cbn [fst].
    now rewrite Hj.
Qed.

Lemma X9_constructQuery_total_witness :
  joinedArgs readmeBuilder = ["$skip=100"; "$top=200"; "dueDate=2025-02-01"]
  /\ constructQuery (QBuilder readmeBuilder)
     = Normal "?$skip=100&$top=200&dueDate=2025-02-01".
Proof.
  split; [reflexivity |].
  exact (proj2 (proj2 (X9_constructQuery_total (QBuilder readmeBuilder)))
           readmeBuilder "$skip=100" ["$top=200"; "dueDate=2025-02-01"]
           eq_refl eq_refl).
Defined.

(** * Properties of the client *)

Section ClientProperties.

Import Client.

Variable connect_to : list Event -> string -> Service + JSValue.
Variable send :
  list Event -> Service -> Verb -> string -> option JSValue
  -> JSValue + JSValue.

Lemma after_nil (w : World) : after w [] = w.
Proof. destruct w as [c evs]. unfold after. cbn. now rewrite app_nil_r. Qed.

Lemma after_after (w : World) (evs evs' : list Event) :
  after (after w evs) evs' = after w (evs ++ evs').
Proof. unfold after. cbn. now rewrite app_assoc. Qed.

Lemma optionalQuery_eq (queryBuilder : option QueryBuilder) (w : World) :
  optionalQuery queryBuilder w = (Returned (queryOf queryBuilder), w).
Proof.
  destruct queryBuilder as [q |]; [| reflexivity].
  unfold optionalQuery, queryOf, QB.build. cbn.
  now destruct (joinedArgs q).
Qed.

Lemma getClient_cached (w : World) (s : Service) :
  serviceConnection (this w) = Some s ->
  getClient connect_to w = (Returned s, w).
Proof.
  intros H. unfold getClient, readThis. cbn. now rewrite H.
Qed.

(** X10.  [getClient] connects only when no connection is stored.  When it
    returns, the service it returns is stored and nothing else of the
    client has changed: the seven endpoints and the binding are as before.
    At most one connection attempt was made, to the binding of the client,
    and a second call returns the same service without another attempt. *)
Theorem X10_getClient_connects_once (w w' : World) (s : Service) :
  getClient connect_to w = (Returned s, w') ->
  serviceConnection (this w') = Some s
  /\ getClient connect_to w' = (Returned s, w')
  /\ (events w' = events w
      \/ (serviceConnection (this w) = None
          /\ events w' = events w ++ [Connect (bindingDefinition (this w))]))
  /\ this w'
     = {| TASK_INSTANCES_URI := TASK_INSTANCES_URI (this w);
          TASK_DEFINITIONS_URI := TASK_DEFINITIONS_URI (this w);
          WORKFLOW_DEFINITIONS_URI := WORKFLOW_DEFINITIONS_URI (this w);
          WORKFLOW_INSTANCES_URI := WORKFLOW_INSTANCES_URI (this w);
          FORMS_URI := FORMS_URI (this w);
          JOBS_URI := JOBS_URI (this w);
          MESSAGES_URI := MESSAGES_URI (this w);
          bindingDefinition := bindingDefinition (this w);
          serviceConnection := Some s |}
  /\ (serviceConnection (this w) = Some s -> w' = w).
Proof.
  unfold getClient, readThis. cbn.
  destruct (serviceConnection (this w)) as [s0 |] eqn:E; cbn.
  - intros H. inversion H; subst. rewrite E. cbn.
    split; [reflexivity |]. split; [reflexivity |]. split; [now left |].
    split; [| reflexivity].
    destruct w' as [[] evs]. cbn in E |- *. now rewrite E.
  - unfold cds_connect_to.
    destruct (connect_to (events w) (bindingDefinition (this w))) as [s1 | r];
      cbn; intros H; inversion H; subst; cbn.
    split; [reflexivity |]. split; [reflexivity |].
    split; [right; now split |]. split; [reflexivity | discriminate].
Qed.

(** X11.  A failed connection attempt is not stored: [getClient] throws
    the reason of the rejection, the client is as before, and the only
    event is the attempt; the next call tries again. *)
Theorem X11_getClient_failure_not_cached (w w' : World) (e : Thrown) :
  getClient connect_to w = (Raised e, w') ->
  serviceConnection (this w) = None
  /\ this w' = this w
  /\ events w' = events w ++ [Connect (bindingDefinition (this w))]
  /\ exists reason,
       e = Rejected reason
       /\ connect_to (events w) (bindingDefinition (this w)) = inr reason.
Proof.
  unfold getClient, readThis. cbn.
  destruct (serviceConnection (this w)) as [s0 |] eqn:E; cbn.
  - discriminate.
  - unfold cds_connect_to.
    destruct (connect_to (events w) (bindingDefinition (this w))) as [s1 | r];
      cbn; intros H; inversion H; subst; cbn.
    repeat split. now exists r.
Qed.

(** ** Requests *)

Lemma tryCatch_eq {A : Type} (body : Async A) (w : World) :
  tryCatch body logAndRethrow w
  = match body w with
    | (Returned a, w') => (Returned a, w')
    | (Raised e, w') => (Raised e, after w' [LogError GENERIC_ERR_MSG e])
    end.
Proof.
  unfold tryCatch. destruct (body w) as [[a | e] w']; reflexivity.
Qed.

Lemma service_call_eq (s : Service) (verb : Verb) (path : string)
    (body : option JSValue) (w : World) :
  service_call send s verb path body w
  = (match send (events w) s verb path body with
     | inl res => Returned res
     | inr reason => Raised (Rejected reason)
     end,
     after w [Request s verb path body]).
Proof.
  unfold service_call, after.
  destruct (send (events w) s verb path body); reflexivity.
Qed.

(** A method that sends one [GET] to a path made of its endpoint and the
    query of an optional builder, when the connection is stored. *)
Lemma get_with_query_eq (uri : WorkflowServiceClient -> string)
    (path : string -> string -> string) (queryBuilder : option QueryBuilder)
    (w : World) (s : Service) :
  serviceConnection (this w) = Some s ->
  tryCatch
    (client <- getClient connect_to ;;
     u <- readThis uri ;;
     q <- optionalQuery queryBuilder ;;
     res <- service_call send client GET (path u q) None ;;
     ret res)
    logAndRethrow w
  = let p := path (uri (this w)) (queryOf queryBuilder) in
    match send (events w) s GET p None with
    | inl res => (Returned res, after w [Request s GET p None])
    | inr reason =>
        (Raised (Rejected reason),
         after w [Request s GET p None;
                  LogError GENERIC_ERR_MSG (Rejected reason)])
    end.
Proof.
  intros Hc. rewrite tryCatch_eq. cbn [bind Async_Monad].
  rewrite (getClient_cached w s Hc). unfold readThis at 1.
  rewrite optionalQuery_eq, service_call_eq.
  destruct (send (events w) s GET _ None); cbn; [reflexivity |].
  now rewrite after_after.
Qed.

Lemma get_plain_eq (uri : WorkflowServiceClient -> string)
    (path : string -> string) (w : World) (s : Service) :
  serviceConnection (this w) = Some s ->
  tryCatch
    (client <- getClient connect_to ;;
     u <- readThis uri ;;
     res <- service_call send client GET (path u) None ;;
     ret res)
    logAndRethrow w
  = let p := path (uri (this w)) in
    match send (events w) s GET p None with
    | inl res => (Returned res, after w [Request s GET p None])
    | inr reason =>
        (Raised (Rejected reason),
         after w [Request s GET p None;
                  LogError GENERIC_ERR_MSG (Rejected reason)])
    end.
Proof.
  intros Hc. rewrite tryCatch_eq. cbn [bind Async_Monad].
  rewrite (getClient_cached w s Hc). unfold readThis at 1.
  rewrite service_call_eq.
  destruct (send (events w) s GET _ None); cbn; [reflexivity |].
  now rewrite after_after.
Qed.

(** X12.  With a stored connection, each of the five methods that take an
    optional query builder sends exactly one [GET], to its endpoint
    followed by the builder's query string (nothing when there is no
    builder or the builder has no fragment).  The answer is returned as it
    is; a rejection is logged once with the generic message and thrown
    again with the same reason. *)
Theorem X12_list_methods_request
    (w : World) (s : Service) (queryBuilder : option QueryBuilder)
    (id : string) :
  serviceConnection (this w) = Some s ->
  let outcomeOf := fun p : string =>
    match send (events w) s GET p None with
    | inl res => (Returned res, after w [Request s GET p None])
    | inr reason =>
        (Raised (Rejected reason),
         after w [Request s GET p None;
                  LogError GENERIC_ERR_MSG (Rejected reason)])
    end in
  getTaskList connect_to send queryBuilder w
  = outcomeOf (TASK_INSTANCES_URI (this w) ++ queryOf queryBuilder)%string
  /\ getTaskDefinitionList connect_to send queryBuilder w
     = outcomeOf (TASK_DEFINITIONS_URI (this w) ++ queryOf queryBuilder)%string
  /\ getWorkflowDefinitionList connect_to send queryBuilder w
     = outcomeOf (WORKFLOW_DEFINITIONS_URI (this w)
                  ++ queryOf queryBuilder)%string
  /\ findWorkflowDefinitionVersionList connect_to send id queryBuilder w
     = outcomeOf (WORKFLOW_DEFINITIONS_URI (this w) ++ "/" ++ id
                  ++ "/versions" ++ queryOf queryBuilder)%string
  /\ getWorkflowInstanceList connect_to send queryBuilder w
     = outcomeOf (WORKFLOW_INSTANCES_URI (this w)
                  ++ queryOf queryBuilder)%string.
Proof.
  intros Hc outcomeOf. subst outcomeOf. cbv beta.
  repeat split.
  - apply (get_with_query_eq TASK_INSTANCES_URI
             (fun u q => u ++ q)%string _ w s Hc).
  - apply (get_with_query_eq TASK_DEFINITIONS_URI
             (fun u q => u ++ q)%string _ w s Hc).
  - apply (get_with_query_eq WORKFLOW_DEFINITIONS_URI
             (fun u q => u ++ q)%string _ w s Hc).
  - apply (get_with_query_eq WORKFLOW_DEFINITIONS_URI
             (fun u q => u ++ "/" ++ id ++ "/versions" ++ q)%string _ w s Hc).
  - apply (get_with_query_eq WORKFLOW_INSTANCES_URI
             (fun u q => u ++ q)%string _ w s Hc).
Qed.

(** X13.  With a stored connection, [findTaskInstance] and
    [findWorkflowInstance] send one [GET] to their endpoint followed by
    "/" and the id, with "?$expand=attributes" appended exactly when the
    flag is given and [true]; the id is copied as it is.  The answer is
    returned as it is, and a rejection is logged once and thrown again. *)
Theorem X13_find_methods_request
    (w : World) (s : Service) (id : string) (expandAttributes : option bool) :
  serviceConnection (this w) = Some s ->
  let suffix :=
    match expandAttributes with
    | Some true => "?$expand=attributes"
    | Some false | None => ""
    end in
  let outcomeOf := fun p : string =>
    match send (events w) s GET p None with
    | inl res => (Returned res, after w [Request s GET p None])
    | inr reason =>
        (Raised (Rejected reason),
         after w [Request s GET p None;
                  LogError GENERIC_ERR_MSG (Rejected reason)])
    end in
  findTaskInstance connect_to send id expandAttributes w
  = outcomeOf (TASK_INSTANCES_URI (this w) ++ "/" ++ id ++ suffix)%string
  /\ findWorkflowInstance connect_to send id expandAttributes w
     = outcomeOf (WORKFLOW_INSTANCES_URI (this w) ++ "/" ++ id ++ suffix)%string.
Proof.
  intros Hc suffix outcomeOf. subst suffix outcomeOf. cbv beta.
  split.
  - unfold findTaskInstance.
    rewrite (get_plain_eq TASK_INSTANCES_URI _ w s Hc). cbv zeta.
    now destruct expandAttributes as [[|] |].
  - unfold findWorkflowInstance.
    rewrite (get_plain_eq WORKFLOW_INSTANCES_URI _ w s Hc). cbv zeta.
    now destruct expandAttributes as [[|] |].
Qed.

(** ** Errors are logged once and thrown again *)

Lemma quiet_ret {A : Type} (a : A) : quiet (ret a).
Proof.
  intros w r w' H. inversion H; subst. exists []. now rewrite app_nil_r.
Qed.

Lemma quiet_readThis {A : Type} (field : WorkflowServiceClient -> A) :
  quiet (readThis field).
Proof.
  intros w r w' H. inversion H; subst. exists []. now rewrite app_nil_r.
Qed.

Lemma quiet_liftJS {A : Type} (c : completion A) : quiet (liftJS c).
Proof.
  intros w r w' H. unfold liftJS in H.
  destruct c; inversion H; subst; exists []; now rewrite app_nil_r.
Qed.

Lemma quiet_bind {A B : Type} (m : Async A) (f : A -> Async B) :
  quiet m -> (forall a, quiet (f a)) -> quiet (x <- m ;; f x).
Proof.
  intros Hm Hf w r w' H. cbn [bind Async_Monad] in H.
  destruct (m w) as [[a | e] w1] eqn:E.
  - destruct (Hm _ _ _ E) as [evs [Hev Hq]].
    destruct (Hf a _ _ _ H) as [evs' [Hev' Hq']].
    exists (evs ++ evs'). split.
    + now rewrite Hev', Hev, app_assoc.
    + now rewrite forallb_app, Hq, Hq'.
  - inversion H; subst. apply (Hm _ _ _ E).
Qed.

Lemma quiet_optionalQuery (queryBuilder : option QueryBuilder) :
  quiet (optionalQuery queryBuilder).
Proof.
  destruct queryBuilder; [apply quiet_liftJS | apply (quiet_ret "")].
Qed.

Lemma quiet_cds_connect_to (binding : string) :
  quiet (cds_connect_to connect_to binding).
Proof.
  intros w r w' H. unfold cds_connect_to in H.
  exists [Connect binding].
  destruct (connect_to (events w) binding); inversion H; subst; now cbn.
Qed.

Lemma quiet_service_call s verb path body :
  quiet (service_call send s verb path body).
Proof.
  intros w r w' H. rewrite service_call_eq in H. inversion H; subst.
  now exists [Request s verb path body].
Qed.

Lemma quiet_set_serviceConnection (s : Service) :
  quiet (set_serviceConnection s).
Proof.
  intros w r w' H. inversion H; subst. exists []. cbn. now rewrite app_nil_r.
Qed.

Lemma quiet_getClient : quiet (getClient connect_to).
Proof.
  unfold getClient. apply quiet_bind; [apply quiet_readThis | intros cached].
  destruct cached as [s |]; [apply quiet_ret |].
  apply quiet_bind; [apply quiet_readThis | intros binding].
  apply quiet_bind; [apply quiet_cds_connect_to | intros s].
  apply quiet_bind; [apply quiet_set_serviceConnection | intros _].
  apply quiet_ret.
Qed.

Lemma logsAndRethrows_tryCatch {A : Type} (body : Async A) :
  quiet body -> logsAndRethrows (tryCatch body logAndRethrow).
Proof.
  intros Hq w r w' H. rewrite tryCatch_eq in H.
  destruct (body w) as [[a | e] w1] eqn:E;
    destruct (Hq _ _ _ E) as [evs [Hev Hn]]; inversion H; subst;
    exists evs; (split; [exact Hn |]); cbn [events after].
  - now rewrite app_nil_r.
  - now rewrite Hev, app_assoc.
Qed.

Ltac quiet_body :=
  repeat first
    [ apply quiet_getClient
    | apply quiet_readThis
    | apply quiet_optionalQuery
    | apply quiet_service_call
    | apply quiet_ret
    | apply quiet_bind; [| intros ?] ].

(** X14.  In every world and whatever the remote service does, each of
    the eight methods below logs exactly when it throws: when it throws
    [e], its last act was to log that same [e] once with the generic
    message, and it logged nothing before; when it returns, it has logged
    nothing. *)
Theorem X14_methods_log_and_rethrow
    (queryBuilder : option QueryBuilder) (id : string)
    (expandAttributes : option bool) (payload : JSValue) :
  logsAndRethrows (getTaskList connect_to send queryBuilder)
  /\ logsAndRethrows (findTaskInstance connect_to send id expandAttributes)
  /\ logsAndRethrows (getTaskDefinitionList connect_to send queryBuilder)
  /\ logsAndRethrows (getWorkflowDefinitionList connect_to send queryBuilder)
  /\ logsAndRethrows
       (findWorkflowDefinitionVersionList connect_to send id queryBuilder)
  /\ logsAndRethrows (getWorkflowInstanceList connect_to send queryBuilder)
  /\ logsAndRethrows (updateWorkflowInstanceList connect_to send payload)
  /\ logsAndRethrows (findWorkflowInstance connect_to send id expandAttributes).
Proof.
  repeat split; apply logsAndRethrows_tryCatch; quiet_body.
Qed.

(** X15.  A method called without a stored connection first connects to
    the binding.  When the attempt is rejected no request is sent: the
    method logs the reason once, throws it, and stores nothing.  When it
    succeeds the service is stored and the request goes to it. *)
Theorem X15_connect_before_request
    (w : World) (queryBuilder : option QueryBuilder) :
  serviceConnection (this w) = None ->
  getTaskList connect_to send queryBuilder w
  = match connect_to (events w) (bindingDefinition (this w)) with
    | inr reason =>
        (Raised (Rejected reason),
         after w [Connect (bindingDefinition (this w));
                  LogError GENERIC_ERR_MSG (Rejected reason)])
    | inl s =>
        let p := (TASK_INSTANCES_URI (this w) ++ queryOf queryBuilder)%string in
        let evs := events w ++ [Connect (bindingDefinition (this w))] in
        let connected :=
          {| TASK_INSTANCES_URI := TASK_INSTANCES_URI (this w);
             TASK_DEFINITIONS_URI := TASK_DEFINITIONS_URI (this w);
             WORKFLOW_DEFINITIONS_URI := WORKFLOW_DEFINITIONS_URI (this w);
             WORKFLOW_INSTANCES_URI := WORKFLOW_INSTANCES_URI (this w);
             FORMS_URI := FORMS_URI (this w);
             JOBS_URI := JOBS_URI (this w);
             MESSAGES_URI := MESSAGES_URI (this w);
             bindingDefinition := bindingDefinition (this w);
             serviceConnection := Some s |} in
        match send evs s GET p None with
        | inl res =>
            (Returned res,
             {| this := connected; events := evs ++ [Request s GET p None] |})
        | inr reason =>
            (Raised (Rejected reason),
             {| this := connected;
                events := (evs ++ [Request s GET p None])
                          ++ [LogError GENERIC_ERR_MSG (Rejected reason)] |})
        end
    end.
Proof.
  intros Hc. unfold getTaskList. rewrite tryCatch_eq.
  cbn [bind Async_Monad]. unfold getClient, readThis at 1 2.
  cbn [bind Async_Monad]. rewrite Hc. cbn [bind Async_Monad].
  unfold cds_connect_to.
  destruct (connect_to (events w) (bindingDefinition (this w))) as [s | r].
  - cbn [bind Async_Monad set_serviceConnection ret this events].
    unfold readThis. rewrite optionalQuery_eq, service_call_eq.
    cbn [this events TASK_INSTANCES_URI].
    destruct (send _ s GET _ None); reflexivity.
  - unfold after. cbn. now rewrite <- app_assoc.
Qed.

(** ** Deleting workflow instances *)

Lemma Array_map_entries (els : list JSValue) :
  forallb (fun el => negb (isNullish el)) els = true ->
  Array_map (fun el =>
               id <- QB.Get el "id" ;;
               ret (VObj [("id", id); ("deleted", VBool true)])) els
  = Normal (map deletionEntry els).
Proof.
  induction els as [| el rest IH]; intros H; [reflexivity |].
  cbn [forallb] in H. apply andb_true_iff in H as [Hel Hrest].
  cbn [Array_map map]. rewrite (IH Hrest).
  destruct el; try discriminate; reflexivity.
Qed.

Lemma Array_map_nullish (good rest : list JSValue) (bad : JSValue) :
  isNullish bad = true ->
  Array_map (fun el =>
               id <- QB.Get el "id" ;;
               ret (VObj [("id", id); ("deleted", VBool true)]))
            (good ++ bad :: rest)
  = Throw TypeError.
Proof.
  intros Hb. induction good as [| el good' IH]; cbn [app Array_map].
  - destruct bad; try discriminate; reflexivity.
  - rewrite IH. destruct (QB.Get el "id") as [v | []]; reflexivity.
Qed.

(** X16.  The payload [deleteWorkflowInstances] builds from the answer of
    the list request: for an answer that is [undefined] or [null], the
    empty sequence; for a sequence without [null] or [undefined]
    elements, one entry [{ id: el.id, deleted: true }] per element in
    order, the id being [undefined] for an element without an [id]; for a
    sequence with a [null] or [undefined] element, and for any other
    answer, a [TypeError]. *)
Theorem X16_deletion_payload
    (els good rest : list JSValue) (bad : JSValue) :
  forallb (fun el => negb (isNullish el)) els = true ->
  isNullish bad = true ->
  deletionPayload VUndefined = Normal (VArr [])
  /\ deletionPayload VNull = Normal (VArr [])
  /\ deletionPayload (VArr els) = Normal (VArr (map deletionEntry els))
  /\ deletionPayload (VArr (good ++ bad :: rest)) = Throw TypeError
  /\ (forall v : JSValue,
        isNullish v = false -> isArray v = false ->
        deletionPayload v = Throw TypeError).
Proof.
  intros Hels Hbad. repeat split.
  - unfold deletionPayload. now rewrite (Array_map_entries els Hels).
  - unfold deletionPayload.
    now rewrite (Array_map_nullish good rest bad Hbad).
  - intros v Hn Ha. destruct v; try discriminate; reflexivity.
Qed.

Lemma updateWorkflowInstanceList_eq (payload : JSValue) (w : World)
    (s : Service) :
  serviceConnection (this w) = Some s ->
  updateWorkflowInstanceList connect_to send payload w
  = let uri := WORKFLOW_INSTANCES_URI (this w) in
    match send (events w) s PATCH uri (Some payload) with
    | inl _ => (Returned tt, after w [Request s PATCH uri (Some payload)])
    | inr reason =>
        (Raised (Rejected reason),
         after w [Request s PATCH uri (Some payload);
                  LogError GENERIC_ERR_MSG (Rejected reason)])
    end.
Proof.
  intros Hc. unfold updateWorkflowInstanceList. rewrite tryCatch_eq.
  cbn [bind Async_Monad].
  rewrite (getClient_cached w s Hc). unfold readThis at 1.
  rewrite service_call_eq.
  destruct (send (events w) s PATCH _ (Some payload)); cbn; [reflexivity |].
  now rewrite after_after.
Qed.

(** X17.  [deleteWorkflowInstances] with a stored connection.  It sends
    the list request for the builder's query.  When that request is
    rejected, no [PATCH] is sent and the reason is thrown after being
    logged twice, once by the list method and once by this one.  When the
    answer gives no payload, no [PATCH] is sent and the [TypeError] is
    logged once and thrown.  Otherwise one [PATCH] with the payload goes to
    the instances endpoint, also when the payload is empty; it returns when
    the [PATCH] is accepted, and a rejected [PATCH] is logged twice and
    thrown. *)
Theorem X17_deleteWorkflowInstances
    (w : World) (s : Service) (queryBuilder : QueryBuilder) :
  serviceConnection (this w) = Some s ->
  let uri := WORKFLOW_INSTANCES_URI (this w) in
  let p := (uri ++ queryOf (Some queryBuilder))%string in
  let listed := Request s GET p None in
  deleteWorkflowInstances connect_to send queryBuilder w
  = match send (events w) s GET p None with
    | inr reason =>
        (Raised (Rejected reason),
         after w [listed;
                  LogError GENERIC_ERR_MSG (Rejected reason);
                  LogError GENERIC_ERR_MSG (Rejected reason)])
    | inl workflows =>
        match deletionPayload workflows with
        | Throw e =>
            (Raised (JSThrown e),
             after w [listed; LogError GENERIC_ERR_MSG (JSThrown e)])
        | Normal payload =>
            let patched := Request s PATCH uri (Some payload) in
            match send (events w ++ [listed]) s PATCH uri (Some payload) with
            | inl _ => (Returned tt, after w [listed; patched])
            | inr reason =>
                (Raised (Rejected reason),
                 after w [listed; patched;
                          LogError GENERIC_ERR_MSG (Rejected reason);
                          LogError GENERIC_ERR_MSG (Rejected reason)])
            end
        end
    end.
Proof.
  intros Hc uri p listed. subst uri p listed.
  unfold deleteWorkflowInstances. rewrite tryCatch_eq.
  cbn [bind Async_Monad].
  unfold getWorkflowInstanceList.
  rewrite (get_with_query_eq WORKFLOW_INSTANCES_URI
             (fun u q => u ++ q)%string (Some queryBuilder) w s Hc).
  cbv zeta.
  destruct (send (events w) s GET _ None) as [workflows | reason].
  - unfold liftJS.
    destruct (deletionPayload workflows) as [payload | e].
    + rewrite updateWorkflowInstanceList_eq with (s := s) by exact Hc.
      cbv zeta. cbn [after this events].
      destruct (send _ s PATCH _ (Some payload)) as [res | reason].
      * now rewrite after_after.
      * now rewrite !after_after.
    + now rewrite after_after.
  - now rewrite after_after.
Qed.

End ClientProperties.

(** ** The client on the README's example *)

Lemma X10_getClient_connects_once_witness :
  Client.getClient echo_connect freshWorld
  = (Client.Returned 1%nat, snd (Client.getClient echo_connect freshWorld))
  /\ Client.getClient echo_connect
       (snd (Client.getClient echo_connect freshWorld))
     = (Client.Returned 1%nat, snd (Client.getClient echo_connect freshWorld))
  /\ Client.MESSAGES_URI
       (Client.this (snd (Client.getClient echo_connect freshWorld)))
     = Client.MESSAGES_URI (Client.this freshWorld).
Proof.
  split; [reflexivity |].
  pose proof (X10_getClient_connects_once echo_connect freshWorld
                (snd (Client.getClient echo_connect freshWorld))
                1%nat eq_refl) as [_ [H [_ [Hthis _]]]].
  split; [exact H |].
  exact (f_equal Client.MESSAGES_URI Hthis).
Defined.

Lemma X11_getClient_failure_not_cached_witness :
  Client.getClient refuse_connect freshWorld
  = (Client.Raised (Client.Rejected (VStr "no destination")),
     snd (Client.getClient refuse_connect freshWorld))
  /\ Client.this (snd (Client.getClient refuse_connect freshWorld))
     = Client.this freshWorld.
Proof.
  split; [reflexivity |].
  exact (proj1 (proj2 (X11_getClient_failure_not_cached refuse_connect
                         freshWorld
                         (snd (Client.getClient refuse_connect freshWorld))
                         (Client.Rejected (VStr "no destination")) eq_refl))).
Defined.

Lemma X12_list_methods_request_witness :
  Client.serviceConnection (Client.this connectedWorld) = Some 1%nat
  /\ Client.getTaskList echo_connect echo_send (Some readmeBuilder)
       connectedWorld
     = (Client.Returned
          (VStr "/v1/task-instances?$skip=100&$top=200&dueDate=2025-02-01"),
        after connectedWorld
          [Client.Request 1%nat Client.GET
             "/v1/task-instances?$skip=100&$top=200&dueDate=2025-02-01" None]).
Proof.
  split; [reflexivity |].
  pose proof (X12_list_methods_request echo_connect echo_send connectedWorld
                1%nat (Some readmeBuilder) "wf1" eq_refl) as H.
  cbv zeta in H. destruct H as [H _].
  exact (eq_trans H eq_refl).
Defined.

Lemma X13_find_methods_request_witness :
  Client.serviceConnection (Client.this connectedWorld) = Some 1%nat
  /\ Client.findTaskInstance echo_connect down_send "42" (Some true)
       connectedWorld
     = (Client.Raised (Client.Rejected (VStr "503")),
        after connectedWorld
          [Client.Request 1%nat Client.GET
             "/v1/task-instances/42?$expand=attributes" None;
           Client.LogError Client.GENERIC_ERR_MSG
             (Client.Rejected (VStr "503"))]).
Proof.
  split; [reflexivity |].
  pose proof (X13_find_methods_request echo_connect down_send connectedWorld
                1%nat "42" (Some true) eq_refl) as H.
  cbv zeta in H. destruct H as [H _].
  exact (eq_trans H eq_refl).
Defined.

Lemma X15_connect_before_request_witness :
  Client.serviceConnection (Client.this freshWorld) = None
  /\ Client.getTaskList refuse_connect echo_send None freshWorld
     = (Client.Raised (Client.Rejected (VStr "no destination")),
        after freshWorld
          [Client.Connect "workflow-api";
           Client.LogError Client.GENERIC_ERR_MSG
             (Client.Rejected (VStr "no destination"))]).
Proof.
  split; [reflexivity |].
  exact (eq_trans
           (X15_connect_before_request refuse_connect echo_send freshWorld
              None eq_refl)
           eq_refl).
Defined.

Lemma X16_deletion_payload_witness :
  forallb (fun el => negb (isNullish el))
    [VObj [("id", VStr "a"); ("status", VStr "RUNNING")]; VObj []] = true
  /\ isNullish VNull = true
  /\ Client.deletionPayload
       (VArr [VObj [("id", VStr "a"); ("status", VStr "RUNNING")]; VObj []])
     = Normal
         (VArr [VObj [("id", VStr "a"); ("deleted", VBool true)];
                VObj [("id", VUndefined); ("deleted", VBool true)]]).
Proof.
  do 2 (split; [reflexivity |]).
  pose proof (X16_deletion_payload
                [VObj [("id", VStr "a"); ("status", VStr "RUNNING")]; VObj []]
                [] [] VNull eq_refl eq_refl) as [_ [_ [H _]]].
  exact (eq_trans H eq_refl).
Defined.

Lemma X17_deleteWorkflowInstances_witness :
  Client.serviceConnection (Client.this connectedWorld) = Some 1%nat
  /\ Client.deleteWorkflowInstances echo_connect down_send readmeBuilder
       connectedWorld
     = (Client.Raised (Client.Rejected (VStr "503")),
        after connectedWorld
          [Client.Request 1%nat Client.GET
             "/v1/workflow-instances?$skip=100&$top=200&dueDate=2025-02-01"
             None;
           Client.LogError Client.GENERIC_ERR_MSG
             (Client.Rejected (VStr "503"));
           Client.LogError Client.GENERIC_ERR_MSG
             (Client.Rejected (VStr "503"))]).
Proof.
  split; [reflexivity |].
  pose proof (X17_deleteWorkflowInstances echo_connect down_send
                connectedWorld 1%nat readmeBuilder eq_refl) as H.
  cbv zeta in H. exact (eq_trans H eq_refl).
Defined.
